(** * Composite image splitter: segmentation, trimming and naming

    A shallow embedding of [scripts/split_image.py].  The decoded image
    ([np.array(img)], shape height x width x channels) is a list of rows,
    a row is a list of pixels and a pixel is the list of its channel
    samples.  Python integers are [Z] where the source lets them be
    negative (thresholds, minimum sizes, trim depth) and [nat] where they
    are indices or lengths.  The float ratios ([white_ratio]) are rationals:
    [np.mean] over a line is the quotient of two small integers, [nan]
    (the mean of an empty array) is [None].  The segmentation and the
    trimmer are studied with these quotients compared exactly; module
    [Binary64] has the classifiers with the rounding of the machine, which
    give the same intervals for every image of a realistic size. *)

From Stdlib Require Import List ZArith Lia Bool Arith String Ascii QArith.
From Stdlib Require Import DecimalString DecimalZ.
Import ListNotations.

Local Open Scope nat_scope.

(* [String] also exports a [length]; lists are the default here. *)
Abbreviation length := Datatypes.length (only parsing).

(** ** numpy helpers *)

Definition pixel := list Z.
Definition line := list pixel.
Definition ndarray := list line.

(** [arr.shape[:2]] of a rectangular array. *)
Definition height (arr : ndarray) : nat := length arr.
Definition width (arr : ndarray) : nat := length (hd [] arr).

(** [arr[r, :, :]] and [arr[:, c, :]]; the callers only pass indices
    below the shape, where numpy does not raise. *)
Definition row_pixels (arr : ndarray) (r : nat) : line := nth r arr [].
Definition column_pixels (arr : ndarray) (c : nat) : line :=
  map (fun rw => nth c rw []) arr.

(** [l[a:b]] for [0 <= a], [0 <= b]. *)
Definition slice {A : Type} (a b : nat) (l : list A) : list A :=
  firstn (b - a) (skipn a l).

(** [arr[y1:y2, x1:x2, :]] *)
Definition sub_array (arr : ndarray) (y1 y2 x1 x2 : nat) : ndarray :=
  map (slice x1 x2) (slice y1 y2 arr).

Definition Zsum (l : list Z) : Z := fold_right Z.add 0%Z l.

(** [np.mean] of a vector of integers, in exact arithmetic; [None] is nan. *)
Definition np_mean (l : list Z) : option Q :=
  match l with
  | [] => None
  | _ => Some (inject_Z (Zsum l) / inject_Z (Z.of_nat (length l)))%Q
  end.

(** [np.mean] of a vector of booleans: the fraction of [True]. *)
Definition np_mean_bool (l : list bool) : option Q :=
  np_mean (map (fun b : bool => if b then 1%Z else 0%Z) l).

(** Comparisons against nan are [False]. *)
Definition nan_gt (m : option Q) (t : Z) : bool :=
  match m with
  | Some q => negb (Qle_bool q (inject_Z t))
  | None => false
  end.

(** The comparison with [white_ratio] in exact arithmetic.  numpy makes
    it in binary64 ([Binary64.nan_ge] below); the two agree as long as the
    length of the line times the denominator of the ratio stays below
    2^52. *)
Definition nan_ge (m : option Q) (r : Q) : bool :=
  match m with
  | Some q => Qle_bool r q
  | None => false
  end.

(** ** Line classifiers *)

(** [is_edge_white] of [trim_white_border]. *)
Definition edge_bright (brightness_threshold : Z) (p : pixel) : bool :=
  nan_gt (np_mean p) brightness_threshold.

Definition is_edge_white (brightness_threshold : Z) (white_ratio : Q)
    (pixels : line) : bool :=
  let brightness := map np_mean pixels in
  let bright := map (fun m => nan_gt m brightness_threshold) brightness in
  nan_ge (np_mean_bool bright) white_ratio.

(** [np.all(pixels > white_threshold, axis=1)] then the mean, shared by
    [is_white_column] and [is_white_row]. *)
Definition pixel_is_white (white_threshold : Z) (p : pixel) : bool :=
  forallb (fun c => (c >? white_threshold)%Z) p.

Definition line_is_white (white_threshold : Z) (white_ratio : Q)
    (pixels : line) : bool :=
  nan_ge (np_mean_bool (map (pixel_is_white white_threshold) pixels)) white_ratio.

Definition is_white_column (arr : ndarray) (white_threshold : Z)
    (white_ratio : Q) (col : nat) : bool :=
  line_is_white white_threshold white_ratio (column_pixels arr col).

Definition is_white_row (arr : ndarray) (white_threshold : Z)
    (white_ratio : Q) (row : nat) : bool :=
  line_is_white white_threshold white_ratio (row_pixels arr row).

(** ** find_regions *)

Definition Interval := (nat * nat)%type.

Record scan_state := mk_scan
  { regions : list Interval; in_region : bool; start : nat }.

(** [while gap_end < axis_size and is_white[gap_end]: gap_end += 1].
    The loop runs at most [axis_size - gap_end] times, which is the fuel
    every caller passes. *)
Fixpoint gap_scan (fuel : nat) (is_white : list bool) (axis_size gap_end : nat)
  : nat :=
  match fuel with
  | O => gap_end
  | S fuel' =>
      if (gap_end <? axis_size) && nth gap_end is_white false
      then gap_scan fuel' is_white axis_size (S gap_end)
      else gap_end
  end.

(** One iteration of [for i in range(axis_size)]. *)
Definition region_step (min_size min_gap : Z) (axis_size : nat)
    (is_white : list bool) (st : scan_state) (i : nat) : scan_state :=
  if negb (nth i is_white false) && negb (in_region st) then
    mk_scan (regions st) true i
  else if nth i is_white false && in_region st then
    let gap_end := gap_scan (axis_size - i) is_white axis_size i in
    if (Z.of_nat gap_end - Z.of_nat i >=? min_gap)%Z || (gap_end =? axis_size)
    then
      mk_scan
        (if (Z.of_nat i - Z.of_nat (start st) >=? min_size)%Z
         then regions st ++ [(start st, i)] else regions st)
        false (start st)
    else st
  else st.

Definition region_loop (min_size min_gap : Z) (axis_size : nat)
    (is_white : list bool) (from count : nat) (st : scan_state) : scan_state :=
  fold_left (region_step min_size min_gap axis_size is_white)
            (seq from count) st.

Definition find_regions (min_size min_gap : Z) (axis_size : nat)
    (is_white_func : nat -> bool) : list Interval :=
  let is_white := map is_white_func (seq 0 axis_size) in
  let st := region_loop min_size min_gap axis_size is_white 0 axis_size
              (mk_scan [] false 0) in
  if in_region st && (Z.of_nat axis_size - Z.of_nat (start st) >=? min_size)%Z
  then regions st ++ [(start st, axis_size)]
  else regions st.

(** Consecutive intervals leave at least one line between them. *)
Fixpoint separated (l : list Interval) : Prop :=
  match l with
  | [] => True
  | (_, e1) :: rest =>
      match rest with
      | [] => True
      | (s2, _) :: _ => e1 < s2 /\ separated rest
      end
  end.

(** ** trim_white_border *)

(** [str.lower] on one code point below 256: the letters A to Z and
    the accented capitals 192 to 222, the multiplication sign 215 apart,
    move up by 32. *)
Definition ascii_lower (c : ascii) : ascii :=
  let n := nat_of_ascii c in
  if ((65 <=? n) && (n <=? 90))
     || ((192 <=? n) && (n <=? 222) && negb (n =? 215))
  then ascii_of_nat (n + 32) else c.

Fixpoint str_lower (s : string) : string :=
  match s with
  | EmptyString => EmptyString
  | String c s' => String (ascii_lower c) (str_lower s')
  end.

(** [c in s] for a one-character [c]. *)
Fixpoint char_in (c : ascii) (s : string) : bool :=
  match s with
  | EmptyString => false
  | String d s' => Ascii.eqb c d || char_in c s'
  end.

(** [for i in range(bound): if white(i): count = i + 1 else: break],
    started at [i] with the count found so far. *)
Fixpoint edge_loop (white_at : nat -> bool) (remaining i count : nat) : nat :=
  match remaining with
  | O => count
  | S r => if white_at i then edge_loop white_at r (S i) (S i) else count
  end.

Definition trim_bound (max_trim : Z) (dim : nat) : nat :=
  Z.to_nat (Z.min max_trim (Z.of_nat dim / 4)).

Definition trim_white_border (img_array : ndarray) (brightness_threshold : Z)
    (white_ratio : Q) (max_trim : Z) (sides : string)
  : nat * nat * nat * nat :=
  let height := height img_array in
  let width := width img_array in
  let is_edge_white := is_edge_white brightness_threshold white_ratio in
  let sides := str_lower sides in
  let top :=
    if char_in "t" sides then
      edge_loop (fun i => is_edge_white (row_pixels img_array i))
                (trim_bound max_trim height) 0 0
    else 0 in
  let bottom :=
    if char_in "b" sides then
      edge_loop (fun i => is_edge_white (row_pixels img_array (height - 1 - i)))
                (trim_bound max_trim height) 0 0
    else 0 in
  let left :=
    if char_in "l" sides then
      edge_loop (fun i => is_edge_white (column_pixels img_array i))
                (trim_bound max_trim width) 0 0
    else 0 in
  let right :=
    if char_in "r" sides then
      edge_loop (fun i => is_edge_white (column_pixels img_array (width - 1 - i)))
                (trim_bound max_trim width) 0 0
    else 0 in
  (top, bottom, left, right).

(** ** generate_output_filename *)

Inductive py_error : Type :=
| ValueError (msg : string)
| KeyError (key : string)
| IndexError (index : string).

(** The result of a call that may raise.  [Unmodelled] marks templates
    outside the fragment of [str.format] embedded here: replacement fields
    with a conversion ([!r]), a format spec ([:03d]), an attribute or an
    index. *)
Inductive outcome (A : Type) : Type :=
| Ok (a : A)
| Raise (e : py_error)
| Unmodelled.

Arguments Ok {A} a.
Arguments Raise {A} e.
Arguments Unmodelled {A}.

Definition bind {A B : Type} (m : outcome A) (k : A -> outcome B) : outcome B :=
  match m with
  | Ok a => k a
  | Raise e => Raise e
  | Unmodelled => Unmodelled
  end.

Definition omap {A B : Type} (f : A -> B) (m : outcome A) : outcome B :=
  bind m (fun a => Ok (f a)).

Inductive pyval : Type :=
| PyStr (s : string)
| PyInt (z : Z).

(** [str(v)], which is what an empty format spec renders. *)
Definition py_str (v : pyval) : string :=
  match v with
  | PyStr s => s
  | PyInt z => NilEmpty.string_of_int (Z.to_int z)
  end.

Definition kwargs := list (string * pyval).

Fixpoint kw_lookup (k : string) (kw : kwargs) : option pyval :=
  match kw with
  | [] => None
  | (k', v) :: kw' => if String.eqb k k' then Some v else kw_lookup k kw'
  end.

Definition is_digit (c : ascii) : bool :=
  let n := nat_of_ascii c in (48 <=? n) && (n <=? 57).

(** The largest index of the interpreter, on a 64-bit build. *)
Definition PY_SSIZE_T_MAX : Z := 2 ^ 63 - 1.

(** What the formatter makes of a field name read as a number: not a
    number, an index, or a number too long to be one. *)
Inductive field_index : Type :=
| NotIndex
| Index (i : Z)
| TooManyDigits.

(** The formatter's [get_integer] on a non-empty name: the digits are
    accumulated from the left, the overflow test comes before each step,
    and the first character that is not a digit ends the attempt. *)
Fixpoint get_integer (s : string) (accumulator : Z) : field_index :=
  match s with
  | EmptyString => Index accumulator
  | String c s' =>
      if is_digit c then
        let digitval := (Z.of_nat (nat_of_ascii c) - 48)%Z in
        if (accumulator >? (PY_SSIZE_T_MAX - digitval) / 10)%Z
        then TooManyDigits
        else get_integer s' (accumulator * 10 + digitval)%Z
      else NotIndex
  end.

(** A replacement field with a plain name.  [format] is called with
    keyword arguments only: an empty name (automatic numbering) or a
    numeric one asks for a positional argument and there is none, which
    is an [IndexError] (recorded with the index as written in the
    template); a number too long for an index is a [ValueError]; any
    other name is looked up among the keyword arguments. *)
Definition get_field (kw : kwargs) (name : string) : outcome string :=
  match name with
  | EmptyString => Raise (IndexError EmptyString)
  | _ =>
      match get_integer name 0 with
      | TooManyDigits =>
          Raise (ValueError "Too many decimal digits in format string")
      | Index _ => Raise (IndexError name)
      | NotIndex =>
          match kw_lookup name kw with
          | Some v => Ok (py_str v)
          | None => Raise (KeyError name)
          end
      end
  end.

Definition field_special (c : ascii) : bool :=
  Ascii.eqb c ":" || Ascii.eqb c "!" || Ascii.eqb c "." || Ascii.eqb c "[".

(** [template.format] with keyword arguments [kw], scanning the template left to right.
    [field] is [None] in literal text and [Some name] inside a
    replacement field whose name read so far is [name]. *)
Fixpoint vformat (kw : kwargs) (field : option string) (t : string)
  {struct t} : outcome string :=
  match t with
  | EmptyString =>
      match field with
      | None => Ok EmptyString
      | Some _ => Raise (ValueError "expected '}' before end of string")
      end
  | String c t' =>
      match field with
      | None =>
          if Ascii.eqb c "{" then
            match t' with
            | EmptyString =>
                Raise (ValueError "Single '{' encountered in format string")
            | String d t'' =>
                if Ascii.eqb d "{" then omap (String "{") (vformat kw None t'')
                else vformat kw (Some EmptyString) t'
            end
          else if Ascii.eqb c "}" then
            match t' with
            | EmptyString =>
                Raise (ValueError "Single '}' encountered in format string")
            | String d t'' =>
                if Ascii.eqb d "}" then omap (String "}") (vformat kw None t'')
                else Raise (ValueError "Single '}' encountered in format string")
            end
          else omap (String c) (vformat kw None t')
      | Some name =>
          if Ascii.eqb c "}" then
            bind (get_field kw name)
                 (fun v => omap (append v) (vformat kw None t'))
          else if Ascii.eqb c "{" then
            Raise (ValueError "unexpected '{' in field name")
          else if field_special c then Unmodelled
          else vformat kw (Some (append name (String c EmptyString))) t'
      end
  end.

Definition py_format (template : string) (kw : kwargs) : outcome string :=
  vformat kw None template.

Definition generate_output_filename (base_name : string)
    (row col total_cols : Z) (suffix_template : string)
    (suffix_list : option (list string)) : outcome string :=
  let n := (row * total_cols + col)%Z in
  match suffix_list with
  | Some ((_ :: _) as l) =>
      let suffix := nth (Z.to_nat (n mod Z.of_nat (length l))) l EmptyString in
      Ok (append base_name suffix)
  | _ =>
      py_format suffix_template
        [("name"%string, PyStr base_name); ("row"%string, PyInt row);
         ("col"%string, PyInt col); ("n"%string, PyInt n);
         ("N"%string, PyInt (n + 1))]
  end.

(** ** split_composite_image *)

Record config : Type := mk_config
  { white_threshold : Z;
    min_size : Z;
    min_gap : Z;
    white_ratio : Q;
    trim : bool;
    trim_max : Z;
    trim_threshold : Z;
    trim_sides : string;
    suffix_template : string;
    suffix_list : option (list string) }.

(** [if not regions: regions = [(0, axis_size)]] *)
Definition or_whole_axis (found : list Interval) (axis_size : nat)
  : list Interval :=
  match found with
  | [] => [(0, axis_size)]
  | _ => found
  end.

Definition h_regions (arr : ndarray) (cfg : config) : list Interval :=
  or_whole_axis
    (find_regions (min_size cfg) (min_gap cfg) (width arr)
       (is_white_column arr (white_threshold cfg) (white_ratio cfg)))
    (width arr).

Definition v_regions (arr : ndarray) (cfg : config) : list Interval :=
  or_whole_axis
    (find_regions (min_size cfg) (min_gap cfg) (height arr)
       (is_white_row arr (white_threshold cfg) (white_ratio cfg)))
    (height arr).

Definition enumerate {A : Type} (l : list A) : list (nat * A) :=
  combine (seq 0 (length l)) l.

(** The crop box is [(x1, y1, x2, y2)], the trim record
    [(top, bottom, left, right)]. *)
Record Slice : Type := mk_slice
  { row : nat;
    col : nat;
    rect : Z * Z * Z * Z;
    trim_info : nat * nat * nat * nat }.

(** The geometry of one cell: the body of the inner loop up to
    [img.crop]. *)
Definition crop_cell (arr : ndarray) (cfg : config)
    (vi : nat) (v : Interval) (hi : nat) (h : Interval) : Slice :=
  let '(y1, y2) := v in
  let '(x1, x2) := h in
  let '(top, bottom, lft, rgt) :=
    if trim cfg then
      trim_white_border (sub_array arr y1 y2 x1 x2) (trim_threshold cfg)
        (80 # 100) (trim_max cfg) (trim_sides cfg)
    else (0, 0, 0, 0) in
  mk_slice vi hi
    (Z.of_nat x1 + Z.of_nat lft, Z.of_nat y1 + Z.of_nat top,
     Z.of_nat x2 - Z.of_nat rgt, Z.of_nat y2 - Z.of_nat bottom)%Z
    (top, bottom, lft, rgt).

(** The cells in the order the two nested loops visit them. *)
Definition assemble (arr : ndarray) (cfg : config)
    (rows cols : list Interval) : list Slice :=
  flat_map
    (fun '(vi, v) => map (fun '(hi, h) => crop_cell arr cfg vi v hi h)
                         (enumerate cols))
    (enumerate rows).

Definition slice_name (base_name : string) (cfg : config) (total_cols : nat)
    (s : Slice) : outcome string :=
  generate_output_filename base_name (Z.of_nat (row s)) (Z.of_nat (col s))
    (Z.of_nat total_cols) (suffix_template cfg) (suffix_list cfg).

(** Naming and saving, slice after slice.  An exception raised while a
    name is resolved ends the run; what was saved before stays saved.
    A saved file is recorded by its [output_name] (the extension and the
    directory are added by the caller's format options) and its slice;
    the progress lines printed on the way are left out. *)
Fixpoint save_all (name_of : Slice -> outcome string) (slices : list Slice)
    (count : nat) : list (string * Slice) * outcome nat :=
  match slices with
  | [] => ([], Ok count)
  | s :: rest =>
      match name_of s with
      | Ok output_name =>
          let '(saved, r) := save_all name_of rest (S count) in
          ((output_name, s) :: saved, r)
      | Raise e => ([], Raise e)
      | Unmodelled => ([], Unmodelled)
      end
  end.

(** The saved slices with their names, and the returned [count]. *)
Definition split_composite_image (arr : ndarray) (base_name : string)
    (cfg : config) : list (string * Slice) * outcome nat :=
  let h_regions := h_regions arr cfg in
  let v_regions := v_regions arr cfg in
  save_all (slice_name base_name cfg (length h_regions))
           (assemble arr cfg v_regions h_regions) 0.

(** ** The comparisons in binary64

    numpy takes both means in IEEE 754 binary64 and compares the second
    one with the float [white_ratio].  Every finite binary64 number is an
    integer multiple of 2^-1074, the smallest subnormal; it is represented
    here by that integer, and the two infinities by [b64_inf] and its
    opposite. *)

(** [num / den] rounded to the nearest integer, ties to even. *)
Definition round_half_even (num den : Z) : Z :=
  let m := (num / den)%Z in
  let r := (num mod den)%Z in
  if (2 * r <? den)%Z then m
  else if (den <? 2 * r)%Z then (m + 1)%Z
  else if Z.even m then m else (m + 1)%Z.

(** The weight, as a power of two of the unit, of the last place of the
    binary64 nearest to [P / q >= 0] units: 53 significant bits, and
    nothing below the unit. *)
Definition b64_shift (P q : Z) : Z :=
  let e0 := (Z.log2 P - Z.log2 q)%Z in
  let L := if (q * 2 ^ e0 <=? P)%Z then e0 else (e0 - 1)%Z in
  Z.max 0 (L - 52).

(** [a / b >= 0] rounded to nearest, ties to even, in units. *)
Definition b64_units_pos (a b : Z) : Z :=
  let P := (a * 2 ^ 1074)%Z in
  let s := b64_shift P b in
  (round_half_even P (b * 2 ^ s) * 2 ^ s)%Z.

Definition b64_units (x : Q) : Z :=
  if (Qnum x <? 0)%Z
  then (- b64_units_pos (- Qnum x) (Zpos (Qden x)))%Z
  else b64_units_pos (Qnum x) (Zpos (Qden x)).

(** 2^1024, the first value that rounds to infinity. *)
Definition b64_inf : Z := (2 ^ 2098)%Z.

(** The binary64 number nearest to [x], as [float] and the division of
    two binary64 integers give it. *)
Definition b64_round (x : Q) : Z :=
  Z.max (- b64_inf) (Z.min b64_inf (b64_units x)).

(** The classifiers with their means and comparisons in binary64.  The
    samples are uint8, so that their sum is exact and the mean is rounded
    once, by the division; [None] is nan. *)
Module Binary64.

Definition np_mean (l : list Z) : option Z :=
  match l with
  | [] => None
  | _ => Some (b64_round (inject_Z (Zsum l) / inject_Z (Z.of_nat (length l))))
  end.

Definition np_mean_bool (l : list bool) : option Z :=
  np_mean (map (fun b : bool => if b then 1%Z else 0%Z) l).

(** The integer threshold is converted to binary64 for the comparison. *)
Definition nan_gt (m : option Z) (t : Z) : bool :=
  match m with
  | Some u => (b64_round (inject_Z t) <? u)%Z
  | None => false
  end.

Definition nan_ge (m : option Z) (r : Q) : bool :=
  match m with
  | Some u => (b64_round r <=? u)%Z
  | None => false
  end.

Definition edge_bright (brightness_threshold : Z) (p : pixel) : bool :=
  nan_gt (np_mean p) brightness_threshold.

Definition is_edge_white (brightness_threshold : Z) (white_ratio : Q)
    (pixels : line) : bool :=
  let brightness := map np_mean pixels in
  let bright := map (fun m => nan_gt m brightness_threshold) brightness in
  nan_ge (np_mean_bool bright) white_ratio.

Definition line_is_white (white_threshold : Z) (white_ratio : Q)
    (pixels : line) : bool :=
  nan_ge (np_mean_bool (map (pixel_is_white white_threshold) pixels)) white_ratio.

Definition is_white_column (arr : ndarray) (white_threshold : Z)
    (white_ratio : Q) (col : nat) : bool :=
  line_is_white white_threshold white_ratio (column_pixels arr col).

Definition is_white_row (arr : ndarray) (white_threshold : Z)
    (white_ratio : Q) (row : nat) : bool :=
  line_is_white white_threshold white_ratio (row_pixels arr row).

(** The column and the row intervals of [split_composite_image]. *)
Definition h_regions (arr : ndarray) (cfg : config) : list Interval :=
  or_whole_axis
    (find_regions (min_size cfg) (min_gap cfg) (width arr)
       (is_white_column arr (white_threshold cfg) (white_ratio cfg)))
    (width arr).

Definition v_regions (arr : ndarray) (cfg : config) : list Interval :=
  or_whole_axis
    (find_regions (min_size cfg) (min_gap cfg) (height arr)
       (is_white_row arr (white_threshold cfg) (white_ratio cfg)))
    (height arr).

End Binary64.

(** ** The classifier as the specification words it *)

(** The mean of the channel values of [p] exceeds [threshold]. *)
Definition mean_exceeds (threshold : Z) (p : pixel) : bool :=
  match p with
  | [] => false
  | _ => (threshold * Z.of_nat (length p) <? Zsum p)%Z
  end.

(** Every channel value of [p] exceeds [threshold]. *)
Definition all_exceed (threshold : Z) (p : pixel) : bool :=
  forallb (fun c => (threshold <? c)%Z) p.

(** The fraction of the pixels of a line that [bright] accepts. *)
Definition bright_fraction (bright : pixel -> bool) (pixels : line) : Q :=
  (inject_Z (Z.of_nat (length (filter bright pixels)))
   / inject_Z (Z.of_nat (length pixels)))%Q.

(** A line is blank when it has pixels and the bright ones make up at
    least [ratio] of them. *)
Definition blank_line (bright : pixel -> bool) (ratio : Q) (pixels : line)
  : bool :=
  match pixels with
  | [] => false
  | _ => Qle_bool ratio (bright_fraction bright pixels)
  end.

(** The same with the fraction and the ratio each rounded to binary64
    before they are compared. *)
Definition blank_line_b64 (bright : pixel -> bool) (ratio : Q) (pixels : line)
  : bool :=
  match pixels with
  | [] => false
  | _ => (b64_round ratio <=? b64_round (bright_fraction bright pixels))%Z
  end.

(** A sample of an 8-bit image, and a pixel made of such samples (with
    a number of channels that no image reaches). *)
Definition uint8 (c : Z) : Prop := (0 <= c <= 255)%Z.
Definition uint8_pixel (p : pixel) : Prop :=
  Forall uint8 p /\ (Z.of_nat (length p) < 2 ^ 44)%Z.

(** One nearly white pixel whose blue channel is below the threshold. *)
Definition tinted_line : line := [[255; 255; 240]%Z].

(** A margin, two lines, a gap of two, three lines, a margin. *)
Definition two_block_axis : list bool :=
  [true; false; false; true; true; false; false; false; true].

(** ** Sample images *)

Definition white_px : pixel := [255; 255; 255]%Z.
Definition dark_px : pixel := [0; 0; 0]%Z.

(** Seven pixels, five of them white, and the float 0.7142857142857143. *)
Definition five_of_seven : line :=
  repeat white_px 5 ++ repeat dark_px 2.
Definition five_sevenths : Q := 7142857142857143 # 10000000000000000.

(** Four by four, dark under a white top row. *)
Definition capped_image : ndarray :=
  [ [white_px; white_px; white_px; white_px];
    [dark_px; dark_px; dark_px; dark_px];
    [dark_px; dark_px; dark_px; dark_px];
    [dark_px; dark_px; dark_px; dark_px] ].

(** Every row of the array has the width of the first one. *)
Definition rectangular (arr : ndarray) : Prop :=
  Forall (fun rw => length rw = width arr) arr.

(** ** Templates, as the help text of the script describes them *)

Inductive placeholder : Type := P_name | P_row | P_col | P_n | P_N.

Definition placeholder_key (p : placeholder) : string :=
  match p with
  | P_name => "name"
  | P_row => "row"
  | P_col => "col"
  | P_n => "n"
  | P_N => "N"
  end.

(** [{name}] is the base name, [{row}] and [{col}] the indices, [{n}]
    the sequence number from 0 and [{N}] the sequence number from 1. *)
Definition placeholder_value (base_name : string) (row col total_cols : Z)
    (p : placeholder) : string :=
  let n := (row * total_cols + col)%Z in
  match p with
  | P_name => base_name
  | P_row => py_str (PyInt row)
  | P_col => py_str (PyInt col)
  | P_n => py_str (PyInt n)
  | P_N => py_str (PyInt (n + 1))
  end.

(** A template cut into pieces: a character that is not a brace, one of
    the five placeholders, or a doubled brace. *)
Inductive segment : Type :=
| Chr (c : ascii)
| Hole (p : placeholder)
| LBrace
| RBrace.

Definition plain_char (c : ascii) : bool :=
  negb (Ascii.eqb c "{") && negb (Ascii.eqb c "}").

Definition segment_ok (sg : segment) : bool :=
  match sg with
  | Chr c => plain_char c
  | _ => true
  end.

Fixpoint template_of (segs : list segment) : string :=
  match segs with
  | [] => EmptyString
  | Chr c :: r => String c (template_of r)
  | Hole p :: r =>
      String "{" (append (placeholder_key p) (String "}" (template_of r)))
  | LBrace :: r => String "{" (String "{" (template_of r))
  | RBrace :: r => String "}" (String "}" (template_of r))
  end.

Fixpoint render (base_name : string) (row col total_cols : Z)
    (segs : list segment) : string :=
  match segs with
  | [] => EmptyString
  | Chr c :: r => String c (render base_name row col total_cols r)
  | Hole p :: r =>
      append (placeholder_value base_name row col total_cols p)
             (render base_name row col total_cols r)
  | LBrace :: r => String "{" (render base_name row col total_cols r)
  | RBrace :: r => String "}" (render base_name row col total_cols r)
  end.

(** A field name made of ordinary characters only. *)
Fixpoint plain_name (key : string) : bool :=
  match key with
  | EmptyString => true
  | String c key' =>
      plain_char c && negb (field_special c) && plain_name key'
  end.


(** The keyword arguments [generate_output_filename] passes to [format]. *)
Definition name_kwargs (base_name : string) (row col total_cols : Z) : kwargs :=
  let n := (row * total_cols + col)%Z in
  [("name"%string, PyStr base_name); ("row"%string, PyInt row);
   ("col"%string, PyInt col); ("n"%string, PyInt n);
   ("N"%string, PyInt (n + 1))].

(** ** Sample runs *)

(** The defaults of [split_composite_image]. *)
Definition default_config : config :=
  mk_config 245 50 3 (98 # 100) false 10 248 "tblr" "{name}_{row}_{col}" None.

(** [cfg] with the template mode of naming and the given template. *)
Definition with_template (cfg : config) (template : string) : config :=
  mk_config (white_threshold cfg) (min_size cfg) (min_gap cfg)
            (white_ratio cfg) (trim cfg) (trim_max cfg) (trim_threshold cfg)
            (trim_sides cfg) template None.

(** Three by three: four dark corners around a white cross. *)
Definition cross_image : ndarray :=
  [ [dark_px; white_px; dark_px];
    [white_px; white_px; white_px];
    [dark_px; white_px; dark_px] ].

Definition cross_config : config :=
  mk_config 245 1 1 (98 # 100) false 10 248 "tblr" "{name}_{N}" None.

(** Two by two, all white: no region on either axis. *)
Definition blank_image : ndarray :=
  [ [white_px; white_px]; [white_px; white_px] ].

(** ** Invariants of the scan *)

(** What an accepted interval looks like once the scan has passed
    [bound]: non-empty, inside the scanned part, content at both ends,
    at least [min_size] long. *)
Definition region_ok (min_size : Z) (W : list bool) (bound : nat)
    (r : Interval) : Prop :=
  fst r < snd r /\ snd r <= bound /\
  nth (fst r) W false = false /\
  nth (snd r - 1) W false = false /\
  (min_size <= Z.of_nat (snd r) - Z.of_nat (fst r))%Z.

(** The state before iteration [i].  While a region is open, every
    accepted interval ended before it started, and a blank line just
    behind [i] belongs to a run that was measured and found to be noise. *)
Definition scan_inv (min_size min_gap : Z) (n : nat) (W : list bool)
    (i : nat) (st : scan_state) : Prop :=
  Forall (region_ok min_size W i) (regions st) /\
  separated (regions st) /\
  (if in_region st then
     start st < i /\
     nth (start st) W false = false /\
     Forall (fun r => snd r < start st) (regions st) /\
     (forall j, S j = i -> nth j W false = true ->
        (Z.of_nat (gap_scan (n - j) W n j) - Z.of_nat j < min_gap)%Z /\
        gap_scan (n - j) W n j <> n)
   else Forall (fun r => snd r < i) (regions st)).

(** ** More invariants of the scan *)

(** A blank line at [j] starts a measured run that is shorter than
    [min_gap] and stops before the end of the axis. *)
Definition noise_at (min_gap : Z) (n : nat) (W : list bool) (j : nat) : Prop :=
  nth j W false = true ->
  (Z.of_nat (gap_scan (n - j) W n j) - Z.of_nat j < min_gap)%Z /\
  gap_scan (n - j) W n j <> n.

(** Every blank line inside the interval is noise. *)
Definition noise_inside (min_gap : Z) (n : nat) (W : list bool)
    (r : Interval) : Prop :=
  forall j, fst r <= j < snd r -> noise_at min_gap n W j.

Definition gap_inv (min_gap : Z) (n : nat) (W : list bool)
    (i : nat) (st : scan_state) : Prop :=
  Forall (noise_inside min_gap n W) (regions st) /\
  (in_region st = true ->
   forall j, start st <= j < i -> noise_at min_gap n W j).

(** The line [j] lies in one of the intervals. *)
Definition covered (l : list Interval) (j : nat) : Prop :=
  Exists (fun r => fst r <= j < snd r) l.

(** Every content line passed so far is in an accepted interval or in
    the region that is still open. *)
Definition cover_inv (W : list bool) (i : nat) (st : scan_state) : Prop :=
  (in_region st = true -> start st < i) /\
  forall j, j < i -> nth j W false = false ->
    covered (regions st) j \/ (in_region st = true /\ start st <= j).

(** A line of three near-white pixels and one dark pixel. *)
Definition speckled_line : line :=
  [[250; 250; 250]%Z; [251; 252; 253]%Z; dark_px; [255; 255; 255]%Z].

(** ** Names of a run *)

(** The pieces of the default template [{name}_{row}_{col}]. *)
Definition default_segments : list segment :=
  [Hole P_name; Chr "_"; Hole P_row; Chr "_"; Hole P_col].

(** The linear index [n] of a slice on a grid of [total_cols] columns. *)
Definition linear_index (total_cols : nat) (s : Slice) : nat :=
  row s * total_cols + col s.

(** The name the suffix list gives to the slice of linear index [k]. *)
Definition cyclic_name (base_name : string) (suffixes : list string)
    (k : nat) : string :=
  append base_name (nth (k mod length suffixes) suffixes EmptyString).

(** [cross_config] with a suffix list of four, one for each slice of
    [cross_image]. *)
Definition four_suffix_config : config :=
  mk_config 245 1 1 (98 # 100) false 10 248 "tblr" "{name}_{N}"
            (Some ["_a"%string; "_b"%string; "_c"%string; "_d"%string]).

(** [cross_config] with a suffix list of two. *)
Definition two_suffix_config : config :=
  mk_config 245 1 1 (98 # 100) false 10 248 "tblr" "{name}_{N}"
            (Some ["_a"%string; "_b"%string]).

(** ** parse_suffix_list *)

(** [str.isspace] on the code points below 256: tab to carriage return,
    the four separators 28 to 31, the space, NEL and the no-break
    space. *)
Definition is_space (c : ascii) : bool :=
  let n := nat_of_ascii c in
  ((9 <=? n) && (n <=? 13)) || ((28 <=? n) && (n <=? 32))
  || (n =? 133) || (n =? 160).

Definition is_comma (c : ascii) : bool := Ascii.eqb c ",".

Fixpoint lstrip (s : string) : string :=
  match s with
  | EmptyString => EmptyString
  | String c s' => if is_space c then lstrip s' else s
  end.

Fixpoint rstrip (s : string) : string :=
  match s with
  | EmptyString => EmptyString
  | String c s' =>
      match rstrip s' with
      | EmptyString => if is_space c then EmptyString else String c EmptyString
      | r => String c r
      end
  end.

(** [s.strip()] *)
Definition strip (s : string) : string := rstrip (lstrip s).

(** [s.split(sep)] for a one-character separator: cut at every
    character that [sep] accepts; the pieces may be empty. *)
Fixpoint split_at (sep : ascii -> bool) (s : string) : list string :=
  match s with
  | EmptyString => [EmptyString]
  | String c s' =>
      if sep c then EmptyString :: split_at sep s'
      else match split_at sep s' with
           | w :: ws => String c w :: ws
           | [] => [String c EmptyString]
           end
  end.

Definition nonempty (s : string) : bool :=
  match s with
  | EmptyString => false
  | _ => true
  end.

(** [s.split()]: the runs of characters between whitespace. *)
Definition split_whitespace (s : string) : list string :=
  filter nonempty (split_at is_space s).

(** The argument is [None] when [--suffixes] is not given. *)
Definition parse_suffix_list (suffix_str : option string)
  : option (list string) :=
  match suffix_str with
  | None => None
  | Some EmptyString => None
  | Some s =>
      if char_in "," s
      then Some (map strip (split_at is_comma s))
      else Some (split_whitespace s)
  end.

(** [sep.join(l)] *)
Fixpoint join (sep : string) (l : list string) : string :=
  match l with
  | [] => EmptyString
  | x :: rest =>
      match rest with
      | [] => x
      | _ => append x (append sep (join sep rest))
      end
  end.

Fixpoint count_char (f : ascii -> bool) (s : string) : nat :=
  match s with
  | EmptyString => 0
  | String c s' => (if f c then 1 else 0) + count_char f s'
  end.

(** No character of [s] satisfies [f]. *)
Fixpoint free_of (f : ascii -> bool) (s : string) : bool :=
  match s with
  | EmptyString => true
  | String c s' => negb (f c) && free_of f s'
  end.

(** The characters of [s] that [f] rejects, in order. *)
Fixpoint without (f : ascii -> bool) (s : string) : string :=
  match s with
  | EmptyString => EmptyString
  | String c s' => if f c then without f s' else String c (without f s')
  end.

Definition concat_strings (l : list string) : string :=
  fold_right append EmptyString l.

(** ** save_image *)

(** [s.lstrip(c)] for a one-character [c]. *)
Fixpoint lstrip_char (c : ascii) (s : string) : string :=
  match s with
  | EmptyString => EmptyString
  | String d s' => if Ascii.eqb d c then lstrip_char c s' else s
  end.

(** [output_format.lower().lstrip('.')] *)
Definition format_lower (output_format : string) : string :=
  lstrip_char "." (str_lower output_format).

(** What [save_image] asks of the image library: whether the image is
    converted to RGB first, the format name passed to [save] ([None] when
    the library is left to pick it from the file name) and whether
    [quality] is passed. *)
Record save_call : Type := mk_save
  { convert_rgb : bool; pil_format : option string; pass_quality : bool }.

Definition save_image (output_format : string) : save_call :=
  let format_lower := format_lower output_format in
  if String.eqb format_lower "jpg" || String.eqb format_lower "jpeg" then
    mk_save true (Some "JPEG"%string) true
  else if String.eqb format_lower "png" then
    mk_save false (Some "PNG"%string) false
  else if String.eqb format_lower "webp" then
    mk_save false (Some "WEBP"%string) true
  else mk_save false None true.

(** [output_ext] of [split_composite_image]. *)
Definition output_ext (output_format : string) : string :=
  String "." (format_lower output_format).

(** ** Intervals end where the content ends *)

(** The line before the interval, if there is one, is blank. *)
Definition blank_before (W : list bool) (start : nat) : Prop :=
  start = 0 \/ nth (start - 1) W false = true.

Definition border_inv (W : list bool) (i : nat) (st : scan_state) : Prop :=
  Forall (fun r => blank_before W (fst r) /\ nth (snd r) W false = true)
         (regions st) /\
  (if in_region st then blank_before W (start st) else blank_before W i).

(** The pieces of the template [{name}_{N}]. *)
Definition numbered_segments : list segment :=
  [Hole P_name; Chr "_"; Hole P_N].

(** * Properties *)

(** ** The region finder *)

Lemma fold_left_snoc {A B : Type} (f : A -> B -> A) (l : list B) (x : B) (a : A) :
  fold_left f (l ++ [x]) a = f (fold_left f l a) x.
Proof. rewrite fold_left_app. reflexivity. Qed.

Lemma separated_snoc (l : list Interval) (s e : nat) :
  separated l ->
  Forall (fun r => snd r < s) l ->
  separated (l ++ [(s, e)]).
Proof.
  induction l as [|[s1 e1] l IH]; intros Hsep Hall; simpl; auto.
  inversion Hall as [|? ? Hhd Htl]; subst. simpl in Hhd.
  destruct l as [|[s2 e2] l'].
  - simpl. split; auto.
  - simpl in Hsep. destruct Hsep as [Hlt Hsep].
    change (e1 < s2 /\ separated (((s2, e2) :: l') ++ [(s, e)])).
    split; [exact Hlt|]. apply IH; assumption.
Qed.

Section RegionScan.

Variables (min_size min_gap : Z) (n : nat) (W : list bool).

Local Abbreviation white i := (nth i W false).
Local Abbreviation step := (region_step min_size min_gap n W).
Local Abbreviation loop := (region_loop min_size min_gap n W).
Local Abbreviation inv := (scan_inv min_size min_gap n W).

(** The look-ahead stops, and it stops at the end of the blank run. *)
Lemma gap_scan_spec (fuel i : nat) :
  n - i <= fuel ->
  let r := gap_scan fuel W n i in
  i <= r /\ (i <= n -> r <= n) /\
  (forall k, i <= k < r -> white k = true) /\
  (r < n -> white r = false).
Proof.
  revert i. induction fuel as [|fuel IH]; intros i Hfuel; simpl.
  - repeat split; lia.
  - destruct (i <? n) eqn:Hin; simpl.
    + apply Nat.ltb_lt in Hin.
      destruct (nth i W false) eqn:Hw.
      * destruct (IH (S i)) as (H1 & H2 & H3 & H4); [lia|].
        repeat split; try lia.
        -- intros k Hk. destruct (Nat.eq_dec k i) as [->|Hne].
           ++ exact Hw.
           ++ apply H3. lia.
        -- exact H4.
      * repeat split; try lia. intros _. exact Hw.
    + apply Nat.ltb_ge in Hin. repeat split; try lia.
Qed.

Lemma gap_scan_unique (i j : nat) :
  i <= j <= n ->
  (forall k, i <= k < j -> white k = true) ->
  (j = n \/ white j = false) ->
  gap_scan (n - i) W n i = j.
Proof.
  intros Hij Hrun Hend.
  destruct (gap_scan_spec (n - i) i (Nat.le_refl _)) as (H1 & H2 & H3 & H4).
  set (r := gap_scan (n - i) W n i) in *.
  destruct (Nat.lt_trichotomy r j) as [Hlt|[Heq|Hgt]]; auto.
  - assert (white r = true) by (apply Hrun; lia).
    assert (white r = false) by (apply H4; lia). congruence.
  - assert (white j = true) by (apply H3; lia).
    destruct Hend as [->|Hf]; [lia | congruence].
Qed.

Lemma gap_scan_next (i : nat) :
  i < n -> white i = true ->
  gap_scan (n - i) W n i = gap_scan (n - S i) W n (S i).
Proof.
  intros Hi Hw. replace (n - i) with (S (n - S i)) by lia. simpl.
  rewrite Hw.
  apply Nat.ltb_lt in Hi. rewrite Hi. reflexivity.
Qed.

Lemma loop_snoc (c : nat) (st : scan_state) :
  loop 0 (S c) st = step (loop 0 c st) c.
Proof.
  unfold region_loop. rewrite seq_S. simpl. apply fold_left_snoc.
Qed.

Lemma loop_app (i c1 c2 : nat) (st : scan_state) :
  loop i (c1 + c2) st = loop (i + c1) c2 (loop i c1 st).
Proof.
  unfold region_loop. rewrite seq_app, fold_left_app. reflexivity.
Qed.

Lemma loop_cons (i c : nat) (st : scan_state) :
  loop i (S c) st = loop (S i) c (step st i).
Proof. reflexivity. Qed.

Lemma region_ok_mono (i j : nat) (r : Interval) :
  i <= j -> region_ok min_size W i r -> region_ok min_size W j r.
Proof. unfold region_ok. intros Hij H. intuition lia. Qed.

Lemma inv_init : inv 0 (mk_scan [] false 0).
Proof. repeat split; simpl; auto. Qed.

Lemma inv_step (i : nat) (st : scan_state) :
  i < n -> inv i st -> inv (S i) (step st i).
Proof.
  intros Hi (Hok & Hsep & Hst).
  assert (Hok' : Forall (region_ok min_size W (S i)) (regions st)).
  { eapply Forall_impl; [|exact Hok]. intros r. apply region_ok_mono. lia. }
  unfold region_step.
  destruct (white i) eqn:Hw; destruct (in_region st) eqn:Hin; simpl.
  - (* blank line inside an open region *)
    destruct Hst as (Hs & Hws & Hends & Hnoise).
    set (r := gap_scan (n - i) W n i).
    destruct ((Z.of_nat r - Z.of_nat i >=? min_gap)%Z || (r =? n)) eqn:Hclose.
    + assert (Hprev : white (i - 1) = false).
      { destruct (white (i - 1)) eqn:Hp; auto. exfalso.
        destruct (Hnoise (i - 1)) as [Hshort Hne]; [lia|exact Hp|].
        rewrite gap_scan_next in Hshort, Hne by (assumption || lia).
        replace (S (i - 1)) with i in * by lia. fold r in Hshort, Hne.
        apply orb_true_iff in Hclose. destruct Hclose as [Hc|Hc].
        - apply Z.geb_le in Hc. lia.
        - apply Nat.eqb_eq in Hc. contradiction. }
      assert (Hends' : Forall (fun r0 : Interval => snd r0 < S i) (regions st)).
      { eapply Forall_impl; [|exact Hends]. simpl. intros; lia. }
      destruct (Z.of_nat i - Z.of_nat (start st) >=? min_size)%Z eqn:Hsz;
        unfold scan_inv; simpl.
      * apply Z.geb_le in Hsz. repeat split.
        -- apply Forall_app. split; [exact Hok'|].
           constructor; [|constructor]. unfold region_ok. simpl.
           repeat split; auto; lia.
        -- apply separated_snoc; assumption.
        -- apply Forall_app. split; [exact Hends'|].
           constructor; [simpl; lia|constructor].
      * repeat split; assumption.
    + unfold scan_inv. rewrite Hin.
      split; [exact Hok'|]. split; [exact Hsep|].
      split; [lia|]. split; [exact Hws|]. split; [exact Hends|].
      intros j Hj _. inversion Hj; subst j. fold r.
      apply orb_false_iff in Hclose. destruct Hclose as [Hc1 Hc2].
      rewrite Z.geb_leb in Hc1. apply Z.leb_gt in Hc1. apply Nat.eqb_neq in Hc2. split; [lia|exact Hc2].
  - (* blank line outside a region *)
    unfold scan_inv. rewrite Hin. repeat split; auto.
    eapply Forall_impl; [|exact Hst]. simpl. intros; lia.
  - (* content line inside an open region *)
    destruct Hst as (Hs & Hws & Hends & Hnoise).
    unfold scan_inv. rewrite Hin.
    split; [exact Hok'|]. split; [exact Hsep|].
    split; [lia|]. split; [exact Hws|]. split; [exact Hends|].
    intros j Hj Hwj. inversion Hj; subst j. congruence.
  - (* content line opening a region *)
    unfold scan_inv. simpl.
    split; [exact Hok'|]. split; [exact Hsep|].
    split; [lia|]. split; [exact Hw|]. split; [exact Hst|].
    intros j Hj Hwj. inversion Hj; subst j. congruence.
Qed.

Lemma inv_loop (c : nat) :
  c <= n -> inv c (loop 0 c (mk_scan [] false 0)).
Proof.
  induction c as [|c IH]; intros Hc.
  - apply inv_init.
  - rewrite loop_snoc. apply inv_step; [lia|]. apply IH. lia.
Qed.

(** Every interval the scan returns, with the trailing one. *)
Lemma scan_result_ok :
  let st := loop 0 n (mk_scan [] false 0) in
  let out := if in_region st
                && (Z.of_nat n - Z.of_nat (start st) >=? min_size)%Z
             then regions st ++ [(start st, n)] else regions st in
  Forall (region_ok min_size W n) out /\ separated out.
Proof.
  intros st out. destruct (inv_loop n (Nat.le_refl _)) as (Hok & Hsep & Hst).
  fold st in Hok, Hsep, Hst. subst out.
  destruct (in_region st) eqn:Hin; simpl; [|split; assumption].
  destruct (Z.of_nat n - Z.of_nat (start st) >=? min_size)%Z eqn:Hsz;
    [|split; assumption].
  destruct Hst as (Hs & Hws & Hends & Hnoise).
  apply Z.geb_le in Hsz. split.
  - apply Forall_app. split; [exact Hok|].
    constructor; [|constructor]. unfold region_ok. simpl.
    repeat split; auto; try lia.
    destruct (white (n - 1)) eqn:Hp; auto. exfalso.
    destruct (Hnoise (n - 1)) as [_ Hne]; [lia|exact Hp|].
    apply Hne. apply gap_scan_unique; [lia| |left; reflexivity].
    intros k Hk. replace k with (n - 1) by lia. exact Hp.
  - apply separated_snoc; assumption.
Qed.

(** *** Runs of equal lines *)

Lemma loop_blank_idle (c i : nat) (st : scan_state) :
  in_region st = false ->
  (forall k, i <= k < i + c -> white k = true) ->
  loop i c st = st.
Proof.
  revert i st. induction c as [|c IH]; intros i st Hin Hrun; [reflexivity|].
  rewrite loop_cons.
  assert (Hstep : step st i = st).
  { unfold region_step. rewrite Hin, (Hrun i) by lia. reflexivity. }
  rewrite Hstep. apply IH; [exact Hin|]. intros k Hk. apply Hrun. lia.
Qed.

Lemma loop_content_inside (c i : nat) (st : scan_state) :
  in_region st = true ->
  (forall k, i <= k < i + c -> white k = false) ->
  loop i c st = st.
Proof.
  revert i st. induction c as [|c IH]; intros i st Hin Hrun; [reflexivity|].
  rewrite loop_cons.
  assert (Hstep : step st i = st).
  { unfold region_step. rewrite Hin, (Hrun i) by lia. reflexivity. }
  rewrite Hstep. apply IH; [exact Hin|]. intros k Hk. apply Hrun. lia.
Qed.

Lemma loop_content_open (c i : nat) (st : scan_state) :
  in_region st = false -> 0 < c ->
  (forall k, i <= k < i + c -> white k = false) ->
  loop i c st = mk_scan (regions st) true i.
Proof.
  intros Hin Hc Hrun. destruct c as [|c]; [lia|].
  rewrite loop_cons.
  assert (Hstep : step st i = mk_scan (regions st) true i).
  { unfold region_step. rewrite Hin, (Hrun i) by lia. reflexivity. }
  rewrite Hstep. apply loop_content_inside; [reflexivity|].
  intros k Hk. apply Hrun. lia.
Qed.

Lemma loop_noise (c i : nat) (st : scan_state) :
  in_region st = true ->
  (forall k, i <= k < i + c -> white k = true) ->
  i + c < n -> white (i + c) = false ->
  (Z.of_nat c < min_gap)%Z ->
  loop i c st = st.
Proof.
  revert i st. induction c as [|c IH]; intros i st Hin Hrun Hlt Hend Hshort;
    [reflexivity|].
  rewrite loop_cons.
  assert (Hstep : step st i = st).
  { unfold region_step. rewrite Hin, (Hrun i) by lia. simpl.
    rewrite (gap_scan_unique i (i + S c)); auto; try lia.
    replace (Z.of_nat (i + S c) - Z.of_nat i >=? min_gap)%Z with false
      by (symmetry; rewrite Z.geb_leb; apply Z.leb_gt; lia).
    replace (i + S c =? n) with false
      by (symmetry; apply Nat.eqb_neq; lia).
    reflexivity. }
  rewrite Hstep. apply IH.
  - exact Hin.
  - intros k Hk. apply Hrun. lia.
  - lia.
  - replace (S i + c) with (i + S c) by lia. exact Hend.
  - lia.
Qed.

Lemma loop_close (c i : nat) (st : scan_state) :
  in_region st = true -> 0 < c ->
  (forall k, i <= k < i + c -> white k = true) ->
  i + c <= n ->
  (i + c = n \/ (white (i + c) = false /\ (min_gap <= Z.of_nat c)%Z)) ->
  loop i c st =
  mk_scan (if (Z.of_nat i - Z.of_nat (start st) >=? min_size)%Z
           then regions st ++ [(start st, i)] else regions st)
          false (start st).
Proof.
  intros Hin Hc Hrun Hle Hend. destruct c as [|c]; [lia|].
  rewrite loop_cons.
  set (st' := mk_scan (if (Z.of_nat i - Z.of_nat (start st) >=? min_size)%Z
                       then regions st ++ [(start st, i)] else regions st)
                      false (start st)).
  assert (Hstep : step st i = st').
  { unfold region_step. rewrite Hin, (Hrun i) by lia. simpl.
    rewrite (gap_scan_unique i (i + S c)); auto; try lia;
      [|destruct Hend as [He|[He _]]; auto].
    replace ((Z.of_nat (i + S c) - Z.of_nat i >=? min_gap)%Z
             || (i + S c =? n)) with true; [reflexivity|].
    symmetry. apply orb_true_iff. destruct Hend as [He|[_ He]].
    - right. apply Nat.eqb_eq. exact He.
    - left. apply Z.geb_le. lia. }
  rewrite Hstep. apply loop_blank_idle; [reflexivity|].
  intros k Hk. apply Hrun. lia.
Qed.

End RegionScan.

Lemma nth_map_seq (f : nat -> bool) (n i : nat) :
  i < n -> nth i (map f (seq 0 n)) false = f i.
Proof.
  intros Hi. rewrite (nth_indep _ false (f 0)) by (rewrite length_map, length_seq; exact Hi).
  rewrite map_nth, seq_nth by exact Hi. reflexivity.
Qed.

Lemma find_regions_ok (min_size min_gap : Z) (axis_size : nat) (f : nat -> bool) :
  Forall (region_ok min_size (map f (seq 0 axis_size)) axis_size)
         (find_regions min_size min_gap axis_size f) /\
  separated (find_regions min_size min_gap axis_size f).
Proof.
  exact (scan_result_ok min_size min_gap axis_size (map f (seq 0 axis_size))).
Qed.

(** C4: every interval returned by [find_regions] satisfies
    [0 <= start < end <= axis_size] and [end - start >= min_size];
    a shorter region is never emitted. *)
Theorem find_regions_intervals_bounded
    (min_size min_gap : Z) (axis_size : nat) (is_white_func : nat -> bool) :
  Forall (fun r : Interval =>
            0 <= fst r /\ fst r < snd r /\ snd r <= axis_size /\
            (Z.of_nat (snd r) - Z.of_nat (fst r) >= min_size)%Z)
         (find_regions min_size min_gap axis_size is_white_func).
Proof.
  destruct (find_regions_ok min_size min_gap axis_size is_white_func) as [Hok _].
  eapply Forall_impl; [|exact Hok].
  intros r (H1 & H2 & _ & _ & H5). repeat split; lia.
Qed.

(** C10: the intervals returned by [find_regions] are strictly ordered
    and disjoint (each ends before the next starts), and the lines at
    [start] and at [end - 1] of each are classified non-blank. *)
Theorem find_regions_separated_content_ends
    (min_size min_gap : Z) (axis_size : nat) (is_white_func : nat -> bool) :
  separated (find_regions min_size min_gap axis_size is_white_func) /\
  Forall (fun r : Interval =>
            is_white_func (fst r) = false /\ is_white_func (snd r - 1) = false)
         (find_regions min_size min_gap axis_size is_white_func).
Proof.
  destruct (find_regions_ok min_size min_gap axis_size is_white_func) as [Hok Hsep].
  split; [exact Hsep|].
  eapply Forall_impl; [|exact Hok].
  intros r (H1 & H2 & H3 & H4 & _).
  rewrite nth_map_seq in H3, H4 by lia. split; assumption.
Qed.

(** *** Two blocks and a gap *)

Lemma nth_repeat_app_lt (v d : bool) (m k : nat) (l : list bool) :
  k < m -> nth k (repeat v m ++ l) d = v.
Proof.
  intros Hk. rewrite app_nth1 by (rewrite repeat_length; exact Hk).
  apply nth_repeat_lt. exact Hk.
Qed.

Lemma nth_repeat_app_ge (v d : bool) (m k : nat) (l : list bool) :
  m <= k -> nth k (repeat v m ++ l) d = nth (k - m) l d.
Proof.
  intros Hk. rewrite app_nth2 by (rewrite repeat_length; exact Hk).
  rewrite repeat_length. reflexivity.
Qed.

Section TwoBlocks.

Variables (p a g b q : nat).

Local Abbreviation axis :=
  (repeat true p ++ repeat false a ++ repeat true g
     ++ repeat false b ++ repeat true q).

Lemma axis_margin_before (k : nat) : k < p -> nth k axis false = true.
Proof. intros Hk. apply nth_repeat_app_lt. exact Hk. Qed.

Lemma axis_first_block (k : nat) :
  p <= k < p + a -> nth k axis false = false.
Proof.
  intros Hk. rewrite nth_repeat_app_ge by lia.
  apply nth_repeat_app_lt. lia.
Qed.

Lemma axis_gap (k : nat) :
  p + a <= k < p + a + g -> nth k axis false = true.
Proof.
  intros Hk. rewrite nth_repeat_app_ge by lia.
  rewrite nth_repeat_app_ge by lia.
  apply nth_repeat_app_lt. lia.
Qed.

Lemma axis_second_block (k : nat) :
  p + a + g <= k < p + a + g + b -> nth k axis false = false.
Proof.
  intros Hk. rewrite nth_repeat_app_ge by lia.
  rewrite nth_repeat_app_ge by lia. rewrite nth_repeat_app_ge by lia.
  apply nth_repeat_app_lt. lia.
Qed.

Lemma axis_margin_after (k : nat) :
  p + a + g + b <= k < p + a + g + b + q -> nth k axis false = true.
Proof.
  intros Hk. rewrite nth_repeat_app_ge by lia.
  rewrite nth_repeat_app_ge by lia. rewrite nth_repeat_app_ge by lia.
  rewrite nth_repeat_app_ge by lia.
  rewrite <- (app_nil_r (repeat true q)).
  apply nth_repeat_app_lt. lia.
Qed.

End TwoBlocks.

(** C1 (amended): on an axis made of a blank margin, a block of [a]
    content lines, a run of [g] blank lines, a block of [b] content lines
    and a blank margin, [find_regions] returns the two blocks when
    [g >= min_gap] and both blocks are at least [min_size] long, and the
    single interval spanning both blocks when [g < min_gap] and that span
    is at least [min_size] long. *)
Theorem find_regions_two_blocks
    (min_size min_gap : Z) (is_white_func : nat -> bool) (p a g b q : nat) :
  0 < a -> 0 < g -> 0 < b ->
  map is_white_func (seq 0 (p + a + g + b + q)) =
    repeat true p ++ repeat false a ++ repeat true g
      ++ repeat false b ++ repeat true q ->
  ((min_gap <= Z.of_nat g)%Z ->
   (min_size <= Z.of_nat a)%Z -> (min_size <= Z.of_nat b)%Z ->
   find_regions min_size min_gap (p + a + g + b + q) is_white_func =
     [(p, p + a); (p + a + g, p + a + g + b)]) /\
  ((Z.of_nat g < min_gap)%Z ->
   (min_size <= Z.of_nat (a + g + b))%Z ->
   find_regions min_size min_gap (p + a + g + b + q) is_white_func =
     [(p, p + a + g + b)]).
Proof.
  intros Ha Hg Hb Hshape.
  unfold find_regions. rewrite Hshape.
  set (W := repeat true p ++ repeat false a ++ repeat true g
              ++ repeat false b ++ repeat true q).
  set (n := p + a + g + b + q).
  set (init := mk_scan [] false 0).
  assert (Hmargin : region_loop min_size min_gap n W 0 p init = init).
  { apply loop_blank_idle; [reflexivity|].
    intros k Hk. apply axis_margin_before. lia. }
  assert (Hopen : region_loop min_size min_gap n W 0 (p + a) init
                  = mk_scan [] true p).
  { rewrite loop_app, Hmargin.
    apply loop_content_open; [reflexivity|exact Ha|].
    intros k Hk. apply axis_first_block. lia. }
  split.
  - intros Hgap Hsa Hsb.
    assert (Hclosed : region_loop min_size min_gap n W 0 (p + a + g) init
                      = mk_scan [(p, p + a)] false p).
    { rewrite loop_app, Hopen.
      rewrite loop_close; simpl;
        [|reflexivity|exact Hg|intros k Hk; apply axis_gap; lia|unfold n; lia
         |right; split; [apply axis_second_block; lia|exact Hgap]].
      replace (Z.of_nat (p + a) - Z.of_nat p >=? min_size)%Z with true
        by (symmetry; apply Z.geb_le; lia).
      reflexivity. }
    assert (Hsecond : region_loop min_size min_gap n W 0 (p + a + g + b) init
                      = mk_scan [(p, p + a)] true (p + a + g)).
    { rewrite loop_app, Hclosed.
      apply loop_content_open; [reflexivity|exact Hb|].
      intros k Hk. apply axis_second_block. lia. }
    destruct q as [|q'].
    + assert (Hall : region_loop min_size min_gap n W 0 (p + a + g + b + 0) init
                     = mk_scan [(p, p + a)] true (p + a + g)).
      { rewrite loop_app, Hsecond. reflexivity. }
      change (p + a + g + b + 0) with n in Hall. rewrite Hall. simpl.
      replace (Z.of_nat n - Z.of_nat (p + a + g) >=? min_size)%Z with true
        by (symmetry; apply Z.geb_le; unfold n; lia).
      unfold n. rewrite Nat.add_0_r. reflexivity.
    + assert (Hall : region_loop min_size min_gap n W 0 (p + a + g + b + S q') init
                     = mk_scan [(p, p + a); (p + a + g, p + a + g + b)]
                               false (p + a + g)).
      { rewrite loop_app, Hsecond.
        rewrite loop_close; simpl;
          [|reflexivity|lia|intros k Hk; apply axis_margin_after; lia
           |unfold n; lia|left; reflexivity].
        replace (Z.of_nat (p + a + g + b) - Z.of_nat (p + a + g) >=? min_size)%Z
          with true by (symmetry; apply Z.geb_le; lia).
        reflexivity. }
      change (p + a + g + b + S q') with n in Hall. rewrite Hall. reflexivity.
  - intros Hgap Hspan.
    assert (Hnoise : region_loop min_size min_gap n W 0 (p + a + g) init
                     = mk_scan [] true p).
    { rewrite loop_app, Hopen.
      apply loop_noise;
        [reflexivity|intros k Hk; apply axis_gap; lia|unfold n; lia
         |apply axis_second_block; lia|exact Hgap]. }
    assert (Hmerged : region_loop min_size min_gap n W 0 (p + a + g + b) init
                      = mk_scan [] true p).
    { rewrite loop_app, Hnoise.
      apply loop_content_inside; [reflexivity|].
      intros k Hk. apply axis_second_block. lia. }
    destruct q as [|q'].
    + assert (Hall : region_loop min_size min_gap n W 0 (p + a + g + b + 0) init
                     = mk_scan [] true p).
      { rewrite loop_app, Hmerged. reflexivity. }
      change (p + a + g + b + 0) with n in Hall. rewrite Hall. simpl.
      replace (Z.of_nat n - Z.of_nat p >=? min_size)%Z with true
        by (symmetry; apply Z.geb_le; unfold n; lia).
      unfold n. rewrite Nat.add_0_r. reflexivity.
    + assert (Hall : region_loop min_size min_gap n W 0 (p + a + g + b + S q') init
                     = mk_scan [(p, p + a + g + b)] false p).
      { rewrite loop_app, Hmerged.
        rewrite loop_close; simpl;
          [|reflexivity|lia|intros k Hk; apply axis_margin_after; lia
           |unfold n; lia|left; reflexivity].
        replace (Z.of_nat (p + a + g + b) - Z.of_nat p >=? min_size)%Z
          with true by (symmetry; apply Z.geb_le; lia).
        reflexivity. }
      change (p + a + g + b + S q') with n in Hall. rewrite Hall. reflexivity.
Qed.

Lemma find_regions_two_blocks_witness :
  find_regions 2 2 9 (fun i => nth i two_block_axis true) = [(1, 3); (5, 8)] /\
  find_regions 2 3 9 (fun i => nth i two_block_axis true) = [(1, 8)].
Proof.
  split.
  - apply (proj1 (find_regions_two_blocks 2 2
                    (fun i => nth i two_block_axis true) 1 2 2 3 1
                    ltac:(lia) ltac:(lia) ltac:(lia) eq_refl)); simpl; lia.
  - apply (proj2 (find_regions_two_blocks 2 3
                    (fun i => nth i two_block_axis true) 1 2 2 3 1
                    ltac:(lia) ltac:(lia) ltac:(lia) eq_refl)); simpl; lia.
Defined.

(** C1 as stated fails: two one-line blocks around a gap of
    [3 >= min_gap] give no interval at all when [min_size = 50], and two
    one-line blocks around a gap of [1 < min_gap] give none either. *)
Lemma find_regions_small_blocks_dropped :
  find_regions 50 3 5 (fun i => nth i [false; true; true; true; false] true) = []
  /\ length (find_regions 50 3 5
               (fun i => nth i [false; true; true; true; false] true)) <> 2
  /\ find_regions 50 3 3 (fun i => nth i [false; true; false] true) = []
  /\ length (find_regions 50 3 3
               (fun i => nth i [false; true; false] true)) <> 1.
Proof. vm_compute. repeat split; discriminate. Qed.

(** ** The line classifiers *)

Lemma Zsum_indicator {A : Type} (f : A -> bool) (l : list A) :
  Zsum (map (fun b : bool => if b then 1%Z else 0%Z) (map f l))
  = Z.of_nat (length (filter f l)).
Proof.
  induction l as [|x l IH]; [reflexivity|].
  simpl. rewrite IH. destruct (f x); simpl length; lia.
Qed.

Lemma np_mean_bool_fraction (f : pixel -> bool) (ratio : Q) (pixels : line) :
  nan_ge (np_mean_bool (map f pixels)) ratio = blank_line f ratio pixels.
Proof.
  destruct pixels as [|p pixels]; [reflexivity|].
  unfold np_mean_bool, np_mean, blank_line, bright_fraction, nan_ge.
  rewrite Zsum_indicator, !length_map. reflexivity.
Qed.

Lemma Qlt_inject_div (t s : Z) (k : nat) :
  (inject_Z t < inject_Z s / inject_Z (Z.of_nat (S k)))%Q <->
  (t * Z.of_nat (S k) < s)%Z.
Proof.
  unfold Qlt, Qdiv, Qmult, Qinv, inject_Z.
  rewrite Nat2Z.inj_succ, <- Zpos_P_of_succ_nat. simpl. lia.
Qed.

Lemma edge_bright_mean (threshold : Z) (p : pixel) :
  edge_bright threshold p = mean_exceeds threshold p.
Proof.
  unfold edge_bright, mean_exceeds, np_mean, nan_gt.
  destruct p as [|c p]; [reflexivity|].
  set (l := c :: p). change (length l) with (S (length p)).
  apply eq_true_iff_eq. rewrite negb_true_iff, Z.ltb_lt.
  rewrite <- Qlt_inject_div. split.
  - intros H. apply Qnot_le_lt. intros Hle.
    apply Qle_bool_iff in Hle. congruence.
  - intros H. apply not_true_is_false. intros Hle.
    apply Qle_bool_iff in Hle. apply (Qlt_not_le _ _ H Hle).
Qed.

Lemma pixel_is_white_all (threshold : Z) (p : pixel) :
  pixel_is_white threshold p = all_exceed threshold p.
Proof.
  unfold pixel_is_white, all_exceed.
  induction p as [|c p IH]; [reflexivity|].
  simpl. rewrite IH, Z.gtb_ltb. reflexivity.
Qed.

Lemma Q_of_nat_pos (l : line) :
  l <> [] -> (0 < inject_Z (Z.of_nat (length l)))%Q.
Proof.
  intros Hl. rewrite <- (Zlt_Qlt 0). destruct l; [contradiction|].
  simpl length. lia.
Qed.

Lemma bright_fraction_le_1 (f : pixel -> bool) (pixels : line) :
  pixels <> [] -> (bright_fraction f pixels <= 1)%Q.
Proof.
  intros Hl. unfold bright_fraction.
  apply Qle_shift_div_r; [apply Q_of_nat_pos; exact Hl|].
  rewrite Qmult_1_l, <- Zle_Qle. apply inj_le. apply filter_length_le.
Qed.

Lemma bright_fraction_nonneg (f : pixel -> bool) (pixels : line) :
  pixels <> [] -> (0 <= bright_fraction f pixels)%Q.
Proof.
  intros Hl. unfold bright_fraction.
  apply Qle_shift_div_l; [apply Q_of_nat_pos; exact Hl|].
  rewrite Qmult_0_l, <- (Zle_Qle 0). lia.
Qed.

Lemma map_ext_line (f g : pixel -> bool) (pixels : line) :
  (forall p, f p = g p) -> map f pixels = map g pixels.
Proof. intros H. apply map_ext. exact H. Qed.

Lemma is_edge_white_blank (threshold : Z) (ratio : Q) (pixels : line) :
  is_edge_white threshold ratio pixels
  = blank_line (mean_exceeds threshold) ratio pixels.
Proof.
  unfold is_edge_white. rewrite map_map.
  rewrite (map_ext_line _ (mean_exceeds threshold))
    by (intros p; apply edge_bright_mean).
  apply np_mean_bool_fraction.
Qed.

Lemma line_is_white_blank (threshold : Z) (ratio : Q) (pixels : line) :
  line_is_white threshold ratio pixels
  = blank_line (all_exceed threshold) ratio pixels.
Proof.
  unfold line_is_white.
  rewrite (map_ext_line _ (all_exceed threshold))
    by (intros p; apply pixel_is_white_all).
  apply np_mean_bool_fraction.
Qed.

(** ** Rounding to binary64 *)

Section Rounding.

Local Open Scope Z_scope.

Lemma round_half_even_spec (num den : Z) :
  0 < den ->
  let m := round_half_even num den in
  (2 * m - 1) * den <= 2 * num <= (2 * m + 1) * den /\
  (2 * num = (2 * m - 1) * den -> Z.even m = true) /\
  (2 * num = (2 * m + 1) * den -> Z.even m = true).
Proof.
  intros Hden. unfold round_half_even.
  pose proof (Z.div_mod num den ltac:(lia)) as Hdm.
  pose proof (Z.mod_pos_bound num den Hden) as Hr.
  set (q := num / den) in *. set (r := num mod den) in *.
  destruct (2 * r <? den) eqn:H1.
  - apply Z.ltb_lt in H1. cbv zeta. repeat split; nia.
  - apply Z.ltb_ge in H1. destruct (den <? 2 * r) eqn:H2.
    + apply Z.ltb_lt in H2. cbv zeta. repeat split; nia.
    + apply Z.ltb_ge in H2. assert (Htie : 2 * r = den) by lia.
      destruct (Z.even q) eqn:He; cbv zeta.
      * repeat split; try nia. intros _. exact He.
      * repeat split; try nia. intros _.
        rewrite Z.even_add, He. reflexivity.
Qed.

Lemma round_half_even_mono (num den num' den' : Z) :
  0 < den -> 0 < den' -> num * den' <= num' * den ->
  round_half_even num den <= round_half_even num' den'.
Proof.
  intros Hd Hd' Hle.
  destruct (round_half_even_spec num den Hd) as ((Hlo & _) & Hev & _).
  destruct (round_half_even_spec num' den' Hd') as ((_ & Hhi') & _ & Hev').
  set (m := round_half_even num den) in *.
  set (m' := round_half_even num' den') in *.
  destruct (Z_le_gt_dec m m') as [|Hgt]; [assumption|exfalso].
  assert (H1 : (2 * m - 1) * den * den' <= 2 * num * den')
    by (apply Z.mul_le_mono_nonneg_r; lia).
  assert (H2 : 2 * num' * den <= (2 * m' + 1) * den' * den)
    by (apply Z.mul_le_mono_nonneg_r; lia).
  assert (H3 : (2 * m - 1) * (den * den') <= (2 * m' + 1) * (den * den')) by nia.
  assert (HD : 0 < den * den') by nia.
  assert (H4 : 2 * m - 1 <= 2 * m' + 1)
    by (apply (Z.mul_le_mono_pos_r _ _ (den * den')); assumption).
  assert (Hm : m = m' + 1) by lia.
  assert (E1 : 2 * num = (2 * m - 1) * den) by nia.
  assert (E2 : 2 * num' = (2 * m' + 1) * den') by nia.
  specialize (Hev E1). specialize (Hev' E2).
  rewrite Hm, Z.even_add, Hev' in Hev. discriminate.
Qed.

Lemma pow2_pos (e : Z) : 0 <= e -> 0 < 2 ^ e.
Proof. intros H. apply Z.pow_pos_nonneg; lia. Qed.

Lemma b64_shift_spec (P q : Z) :
  0 <= P -> 0 < q ->
  let s := b64_shift P q in
  0 <= s /\ P < q * 2 ^ (s + 53) /\ (0 < s -> q * 2 ^ (s + 52) <= P).
Proof.
  intros HP Hq. unfold b64_shift.
  set (e0 := Z.log2 P - Z.log2 q).
  set (L := if q * 2 ^ e0 <=? P then e0 else e0 - 1).
  cbv zeta.
  pose proof (Z.log2_nonneg P) as HlP. pose proof (Z.log2_nonneg q) as Hlq.
  destruct (Z.log2_spec q Hq) as [Hq1 Hq2]. rewrite <- Z.add_1_r in Hq2.
  assert (Hs : 0 <= Z.max 0 (L - 52)) by lia.
  split; [exact Hs|]. split.
  - (* upper bound *)
    destruct (Z_lt_le_dec e0 0) as [Hneg|Hpos].
    + assert (HPq : P < q).
      { destruct (Z.eq_dec P 0) as [->|HP0]; [lia|].
        destruct (Z.log2_spec P ltac:(lia)) as [_ HP2].
        rewrite <- Z.add_1_r in HP2.
        assert (2 ^ (Z.log2 P + 1) <= 2 ^ Z.log2 q)
          by (apply Z.pow_le_mono_r; lia).
        lia. }
      pose proof (pow2_pos (Z.max 0 (L - 52) + 53) ltac:(lia)). nia.
    + assert (HL : P < q * 2 ^ (L + 1) /\ -1 <= L).
      { subst L. destruct (q * 2 ^ e0 <=? P) eqn:Hc.
        - apply Z.leb_le in Hc. split; [|lia].
          assert (HP0 : 0 < P) by (pose proof (pow2_pos e0 Hpos); nia).
          destruct (Z.log2_spec P HP0) as [_ HP2].
          rewrite <- Z.add_1_r in HP2.
          replace (Z.log2 P + 1) with (Z.log2 q + (e0 + 1)) in HP2
            by (unfold e0; lia).
          rewrite Z.pow_add_r in HP2 by lia.
          pose proof (pow2_pos (e0 + 1) ltac:(lia)). nia.
        - apply Z.leb_gt in Hc. split; [|lia].
          replace (e0 - 1 + 1) with e0 by lia. exact Hc. }
      destruct HL as [HL1 HL2].
      assert (2 ^ (L + 1) <= 2 ^ (Z.max 0 (L - 52) + 53))
        by (apply Z.pow_le_mono_r; lia).
      nia.
  - (* lower bound *)
    intros Hs0. assert (HL : 53 <= L) by lia.
    replace (Z.max 0 (L - 52) + 52) with L by lia.
    assert (He0 : 53 <= e0) by (subst L; destruct (_ <=? _); lia).
    subst L. destruct (q * 2 ^ e0 <=? P) eqn:Hc.
    + apply Z.leb_le in Hc. exact Hc.
    + assert (HP0 : 0 < P).
      { destruct (Z.eq_dec P 0) as [->|]; [|lia].
        unfold e0 in He0. simpl Z.log2 in He0. lia. }
      destruct (Z.log2_spec P HP0) as [HP1 _].
      replace (Z.log2 P) with (Z.log2 q + 1 + (e0 - 1)) in HP1
        by (unfold e0; lia).
      rewrite Z.pow_add_r in HP1 by lia.
      pose proof (pow2_pos (e0 - 1) ltac:(lia)). nia.
Qed.

Lemma b64_units_pos_bounds (a b : Z) :
  0 <= a -> 0 < b ->
  let s := b64_shift (a * 2 ^ 1074) b in
  0 <= b64_units_pos a b <= 2 ^ (s + 53) /\
  (0 < s -> 2 ^ (s + 52) <= b64_units_pos a b).
Proof.
  intros Ha Hb. unfold b64_units_pos.
  set (K := 2 ^ 1074). assert (HK : 0 < K) by (apply pow2_pos; lia).
  clearbody K.
  set (P := a * K). assert (HP : 0 <= P) by (subst P; nia).
  destruct (b64_shift_spec P b HP Hb) as (Hs & Hup & Hlow).
  set (s := b64_shift P b) in *. cbv zeta.
  assert (H2s : 0 < 2 ^ s) by (apply pow2_pos; exact Hs).
  assert (Hden : 0 < b * 2 ^ s) by nia.
  destruct (round_half_even_spec P (b * 2 ^ s) Hden) as ((Hlo & Hhi) & _).
  set (m := round_half_even P (b * 2 ^ s)) in *.
  rewrite Z.pow_add_r in Hup by lia.
  assert (Hlow' : 0 < s -> b * (2 ^ s * 2 ^ 52) <= P).
  { intros Hs0. rewrite <- Z.pow_add_r by lia. apply Hlow, Hs0. }
  clear Hlow.
  rewrite !Z.pow_add_r by lia.
  set (T := 2 ^ s) in *. clearbody T.
  assert (E53 : 2 ^ 53 = 9007199254740992) by reflexivity.
  assert (E52 : 2 ^ 52 = 4503599627370496) by reflexivity.
  rewrite E53 in *. rewrite E52 in *.
  assert (Hm0 : 0 <= m) by nia.
  assert (Hm1 : m <= 9007199254740992).
  { destruct (Z_le_gt_dec m 9007199254740992); [assumption|exfalso].
    assert ((2 * 9007199254740992 + 1) * (b * T) <= (2 * m - 1) * (b * T))
      by (apply Z.mul_le_mono_nonneg_r; lia).
    nia. }
  split; [split; nia|].
  intros Hs0. specialize (Hlow' Hs0).
  assert (Hm2 : 4503599627370496 <= m).
  { destruct (Z_le_gt_dec 4503599627370496 m); [assumption|exfalso].
    assert ((2 * m + 1) * (b * T) <= (2 * 4503599627370495 + 1) * (b * T))
      by (apply Z.mul_le_mono_nonneg_r; lia).
    nia. }
  nia.
Qed.

Lemma b64_units_pos_mono (a b a' b' : Z) :
  0 <= a -> 0 < b -> 0 <= a' -> 0 < b' -> a * b' <= a' * b ->
  b64_units_pos a b <= b64_units_pos a' b'.
Proof.
  intros Ha Hb Ha' Hb' Hle.
  destruct (b64_units_pos_bounds a b Ha Hb) as ((_ & Hup) & _).
  destruct (b64_units_pos_bounds a' b' Ha' Hb') as (_ & Hlow').
  unfold b64_units_pos in *.
  set (K := 2 ^ 1074) in *.
  assert (HK : 0 < K) by (apply pow2_pos; lia). clearbody K.
  assert (HP : 0 <= a * K) by nia. assert (HP' : 0 <= a' * K) by nia.
  assert (HPle : a * K * b' <= a' * K * b) by nia.
  destruct (b64_shift_spec (a * K) b HP Hb) as (Hs & _ & Hl).
  destruct (b64_shift_spec (a' * K) b' HP' Hb') as (Hs' & Hu' & _).
  set (P := a * K) in *. set (P' := a' * K) in *. clearbody P P'.
  set (s := b64_shift P b) in *. set (s' := b64_shift P' b') in *.
  clearbody s s'. cbv zeta in *.
  destruct (Z.lt_trichotomy s s') as [Hlt | [Heq | Hgt]].
  - specialize (Hlow' ltac:(lia)).
    assert (2 ^ (s + 53) <= 2 ^ (s' + 52)) by (apply Z.pow_le_mono_r; lia).
    lia.
  - subst s'. pose proof (pow2_pos s Hs) as H2s.
    apply Z.mul_le_mono_nonneg_r; [lia|].
    apply round_half_even_mono; nia.
  - exfalso. specialize (Hl ltac:(lia)).
    assert (H2 : 2 ^ (s' + 53) <= 2 ^ (s + 52)) by (apply Z.pow_le_mono_r; lia).
    pose proof (pow2_pos (s' + 53) ltac:(lia)).
    pose proof (pow2_pos (s + 52) ltac:(lia)).
    set (U := 2 ^ (s' + 53)) in *. set (V := 2 ^ (s + 52)) in *.
    clearbody U V.
    assert (P' * b < b' * U * b) by nia.
    assert (b' * U * b <= b' * V * b) by nia.
    assert (b' * V * b <= b' * P) by nia.
    lia.
Qed.

Lemma b64_units_pos_nonneg (a b : Z) :
  0 <= a -> 0 < b -> 0 <= b64_units_pos a b.
Proof.
  intros Ha Hb. destruct (b64_units_pos_bounds a b Ha Hb) as ((H & _) & _).
  exact H.
Qed.

Lemma b64_units_mono (x y : Q) : (x <= y)%Q -> b64_units x <= b64_units y.
Proof.
  unfold Qle, b64_units. destruct x as [a b], y as [a' b']. cbn [Qnum Qden].
  intros Hle.
  destruct (a <? 0) eqn:Ha; destruct (a' <? 0) eqn:Ha';
    try apply Z.ltb_lt in Ha; try apply Z.ltb_ge in Ha;
    try apply Z.ltb_lt in Ha'; try apply Z.ltb_ge in Ha'.
  - assert (b64_units_pos (- a') (Z.pos b') <= b64_units_pos (- a) (Z.pos b));
      [|lia].
    apply b64_units_pos_mono; lia.
  - pose proof (b64_units_pos_nonneg (- a) (Z.pos b) ltac:(lia) ltac:(lia)).
    pose proof (b64_units_pos_nonneg a' (Z.pos b') ltac:(lia) ltac:(lia)).
    lia.
  - exfalso. pose proof (Pos2Z.is_pos b). pose proof (Pos2Z.is_pos b'). nia.
  - apply b64_units_pos_mono; lia.
Qed.

Lemma b64_shift_mono (P q P' q' : Z) :
  0 <= P -> 0 < q -> 0 <= P' -> 0 < q' -> P * q' <= P' * q ->
  b64_shift P q <= b64_shift P' q'.
Proof.
  intros HP Hq HP' Hq' Hle.
  destruct (b64_shift_spec P q HP Hq) as (Hs & _ & Hl).
  destruct (b64_shift_spec P' q' HP' Hq') as (Hs' & Hu' & _).
  set (s := b64_shift P q) in *. set (s' := b64_shift P' q') in *.
  clearbody s s'. cbv zeta in *.
  destruct (Z_le_gt_dec s s') as [|Hgt]; [assumption|exfalso].
  specialize (Hl ltac:(lia)).
  assert (H2 : 2 ^ (s' + 53) <= 2 ^ (s + 52)) by (apply Z.pow_le_mono_r; lia).
  pose proof (pow2_pos (s' + 53) ltac:(lia)).
  pose proof (pow2_pos (s + 52) ltac:(lia)).
  set (U := 2 ^ (s' + 53)) in *. set (V := 2 ^ (s + 52)) in *.
  clearbody U V.
  assert (P' * q < q' * U * q) by nia.
  assert (q' * U * q <= q' * V * q) by nia.
  assert (q' * V * q <= q' * P) by nia.
  lia.
Qed.

(** Two fractions that differ are rounded to different binary64 numbers
    as long as the product of their denominators stays below the
    53 bits of the significand. *)
Lemma b64_units_pos_lt (a b c d E : Z) :
  0 <= a -> 0 < b -> 0 <= c -> 0 < d -> 0 <= E ->
  a * d < c * b -> c < d * 2 ^ E -> b * d * 2 ^ E < 2 ^ 53 ->
  b64_units_pos a b < b64_units_pos c d.
Proof.
  intros Ha Hb Hc Hd HE Hlt Hsmall Hden.
  assert (HKE : b * d * 2 ^ (E + 1021) < 2 ^ 1074).
  { rewrite Z.pow_add_r by lia.
    replace (2 ^ 1074) with (2 ^ 53 * 2 ^ 1021)
      by (rewrite <- Z.pow_add_r by lia; reflexivity).
    pose proof (pow2_pos 1021 ltac:(lia)). nia. }
  assert (Hc' : c * 2 ^ 1074 < d * 2 ^ (E + 1074)).
  { rewrite Z.pow_add_r by lia.
    pose proof (pow2_pos 1074 ltac:(lia)). nia. }
  unfold b64_units_pos.
  set (K := 2 ^ 1074) in *.
  assert (HK : 0 < K) by (apply pow2_pos; lia). clearbody K.
  assert (HP : 0 <= a * K) by nia. assert (HP' : 0 <= c * K) by nia.
  assert (Hgap : K <= c * K * b - a * K * d) by nia.
  pose proof (b64_shift_mono (a * K) b (c * K) d HP Hb HP' Hd ltac:(nia))
    as Hss.
  destruct (b64_shift_spec (a * K) b HP Hb) as (Hs & _ & _).
  destruct (b64_shift_spec (c * K) d HP' Hd) as (Hs' & _ & Hl').
  set (P := a * K) in *. set (P' := c * K) in *. clearbody P P'.
  set (s := b64_shift P b) in *. set (s' := b64_shift P' d) in *.
  clearbody s s'. cbv zeta in *.
  assert (Hs'le : s' <= E + 1021).
  { destruct (Z_le_gt_dec s' 0); [lia|]. specialize (Hl' ltac:(lia)).
    assert (Hp : 2 ^ (s' + 52) < 2 ^ (E + 1074)).
    { pose proof (pow2_pos (s' + 52) ltac:(lia)).
      pose proof (pow2_pos (E + 1074) ltac:(lia)). nia. }
    apply Z.pow_lt_mono_r_iff in Hp; lia. }
  assert (HT' : 2 ^ s' <= 2 ^ (E + 1021)) by (apply Z.pow_le_mono_r; lia).
  assert (HT : 2 ^ s <= 2 ^ s') by (apply Z.pow_le_mono_r; lia).
  pose proof (pow2_pos s Hs) as HTp. pose proof (pow2_pos s' Hs') as HTp'.
  set (T := 2 ^ s) in *. set (T' := 2 ^ s') in *.
  set (W := 2 ^ (E + 1021)) in *. clearbody T T' W.
  destruct (round_half_even_spec P (b * T) ltac:(nia)) as ((Hlo & _) & _).
  destruct (round_half_even_spec P' (d * T') ltac:(nia)) as ((_ & Hhi') & _).
  set (m := round_half_even P (b * T)) in *.
  set (m' := round_half_even P' (d * T')) in *. clearbody m m'.
  destruct (Z_lt_le_dec (m * T) (m' * T')) as [|Hge]; [assumption|exfalso].
  assert (H1 : 2 * P' * b <= (2 * (m' * T') + T') * (d * b)) by nia.
  assert (H2 : (2 * (m * T) - T) * (b * d) <= 2 * P * d) by nia.
  assert (H3 : 2 * K <= (T' + T) * (b * d)).
  { assert ((2 * (m' * T') + T') * (d * b) <= (2 * (m * T) + T') * (d * b))
      by (apply Z.mul_le_mono_nonneg_r; nia).
    nia. }
  assert (H4 : (T' + T) * (b * d) <= 2 * W * (b * d))
    by (apply Z.mul_le_mono_nonneg_r; nia).
  nia.
Qed.

Lemma b64_round_mono (x y : Q) : (x <= y)%Q -> b64_round x <= b64_round y.
Proof.
  intros H. apply b64_units_mono in H. unfold b64_round.
  generalize b64_inf. intros I. lia.
Qed.

Lemma b64_round_lt (x y : Q) (E : Z) :
  (0 <= x)%Q -> (x < y)%Q -> (y < inject_Z (2 ^ E))%Q -> 0 <= E ->
  b64_units (inject_Z (2 ^ E)) < b64_inf ->
  Zpos (Qden x) * Zpos (Qden y) * 2 ^ E < 2 ^ 53 ->
  b64_round x < b64_round y.
Proof.
  intros H0 Hlt Hy HE Hfin Hden.
  assert (Hyle : b64_units y <= b64_units (inject_Z (2 ^ E)))
    by (apply b64_units_mono, Qlt_le_weak, Hy).
  assert (Hx0 : 0 <= b64_units x).
  { change 0 with (b64_units 0). apply b64_units_mono, H0. }
  assert (Hu : b64_units x < b64_units y).
  { unfold b64_units. destruct x as [a b], y as [c d].
    unfold Qle, Qlt in *. cbn [Qnum Qden inject_Z] in *.
    assert (Ha : 0 <= a) by lia.
    assert (Hc : 0 <= c).
    { pose proof (Pos2Z.is_pos b). pose proof (Pos2Z.is_pos d). nia. }
    replace (a <? 0) with false by (symmetry; apply Z.ltb_ge; exact Ha).
    replace (c <? 0) with false by (symmetry; apply Z.ltb_ge; exact Hc).
    apply (b64_units_pos_lt a (Z.pos b) c (Z.pos d) E); lia. }
  unfold b64_round. revert Hfin. generalize b64_inf. intros I Hfin. lia.
Qed.

End Rounding.

(** ** The classifiers in binary64 *)

Lemma np_mean_bool_b64 (f : pixel -> bool) (ratio : Q) (pixels : line) :
  Binary64.nan_ge (Binary64.np_mean_bool (map f pixels)) ratio
  = blank_line_b64 f ratio pixels.
Proof.
  destruct pixels as [|p pixels]; [reflexivity|].
  unfold Binary64.np_mean_bool, Binary64.np_mean, blank_line_b64,
    bright_fraction, Binary64.nan_ge.
  rewrite Zsum_indicator, !length_map. reflexivity.
Qed.

Lemma Qdiv_lt_inject (s t : Z) (k : nat) :
  (inject_Z s / inject_Z (Z.of_nat (S k)) < inject_Z t)%Q <->
  (s < t * Z.of_nat (S k))%Z.
Proof.
  unfold Qlt, Qdiv, Qmult, Qinv, inject_Z.
  rewrite Nat2Z.inj_succ, <- Zpos_P_of_succ_nat. simpl. lia.
Qed.

Lemma Qdiv_le_inject (s t : Z) (k : nat) :
  (inject_Z s / inject_Z (Z.of_nat (S k)) <= inject_Z t)%Q <->
  (s <= t * Z.of_nat (S k))%Z.
Proof.
  unfold Qle, Qdiv, Qmult, Qinv, inject_Z.
  rewrite Nat2Z.inj_succ, <- Zpos_P_of_succ_nat. simpl. lia.
Qed.

Lemma Qden_div_nat (s : Z) (k : nat) :
  Zpos (Qden (inject_Z s / inject_Z (Z.of_nat (S k)))) = Z.of_nat (S k).
Proof.
  unfold Qdiv, Qmult, Qinv, inject_Z.
  rewrite Nat2Z.inj_succ, <- Zpos_P_of_succ_nat. reflexivity.
Qed.

Lemma Zsum_uint8 (p : pixel) :
  Forall uint8 p -> (0 <= Zsum p <= 255 * Z.of_nat (length p))%Z.
Proof.
  induction 1 as [|c p Hc _ IH]; [simpl; lia|].
  unfold uint8 in Hc. cbn [Zsum fold_right length].
  fold (Zsum p). rewrite Nat2Z.inj_succ. lia.
Qed.

Lemma edge_bright_b64 (threshold : Z) (p : pixel) :
  uint8_pixel p ->
  Binary64.edge_bright threshold p = mean_exceeds threshold p.
Proof.
  intros [Hu Hlen]. destruct p as [|c p]; [reflexivity|].
  pose proof (Zsum_uint8 _ Hu) as Hsum.
  unfold Binary64.edge_bright, Binary64.np_mean, Binary64.nan_gt, mean_exceeds.
  set (l := c :: p) in *. change (length l) with (S (length p)) in *.
  set (m := (inject_Z (Zsum l) / inject_Z (Z.of_nat (S (length p))))%Q).
  assert (Hm0 : (0 <= m)%Q).
  { apply Qnot_lt_le. intros H.
    pose proof (proj1 (Qdiv_lt_inject (Zsum l) 0 (length p)) H). lia. }
  destruct (Z_lt_le_dec (threshold * Z.of_nat (S (length p))) (Zsum l))
    as [Hgt|Hle].
  - replace (threshold * Z.of_nat (S (length p)) <? Zsum l)%Z with true
      by (symmetry; apply Z.ltb_lt; exact Hgt).
    apply Z.ltb_lt.
    destruct (Z_lt_le_dec threshold 0) as [Hneg|Hpos].
    + apply Z.le_lt_trans with (b64_round (inject_Z (-1))).
      * apply b64_round_mono. rewrite <- Zle_Qle. lia.
      * apply Z.lt_le_trans with (b64_round 0); [vm_compute; reflexivity|].
        apply b64_round_mono. exact Hm0.
    + apply (b64_round_lt (inject_Z threshold) m 8).
      * rewrite <- (Zle_Qle 0). exact Hpos.
      * apply Qlt_inject_div. exact Hgt.
      * apply Qdiv_lt_inject. change (2 ^ 8)%Z with 256%Z. lia.
      * lia.
      * vm_compute. reflexivity.
      * unfold m. rewrite Qden_div_nat. cbn [inject_Z Qden].
        change (2 ^ 8)%Z with 256%Z.
        change (2 ^ 53)%Z with (2 ^ 44 * 512)%Z. lia.
  - replace (threshold * Z.of_nat (S (length p)) <? Zsum l)%Z with false
      by (symmetry; apply Z.ltb_ge; exact Hle).
    apply Z.ltb_ge. apply b64_round_mono. apply Qdiv_le_inject. exact Hle.
Qed.

Lemma is_edge_white_b64 (threshold : Z) (ratio : Q) (pixels : line) :
  Forall uint8_pixel pixels ->
  Binary64.is_edge_white threshold ratio pixels
  = blank_line_b64 (mean_exceeds threshold) ratio pixels.
Proof.
  intros Hu. unfold Binary64.is_edge_white. rewrite map_map.
  rewrite <- np_mean_bool_b64. f_equal. f_equal.
  apply map_ext_in. intros p Hp.
  apply edge_bright_b64. rewrite Forall_forall in Hu. apply Hu, Hp.
Qed.

Lemma line_is_white_b64 (threshold : Z) (ratio : Q) (pixels : line) :
  Binary64.line_is_white threshold ratio pixels
  = blank_line_b64 (all_exceed threshold) ratio pixels.
Proof.
  unfold Binary64.line_is_white.
  rewrite (map_ext_line _ (all_exceed threshold))
    by (intros p; apply pixel_is_white_all).
  apply np_mean_bool_b64.
Qed.

Lemma blank_line_b64_above (bright : pixel -> bool) (ratio : Q)
    (pixels : line) :
  pixels <> [] -> (ratio <= bright_fraction bright pixels)%Q ->
  blank_line_b64 bright ratio pixels = true.
Proof.
  intros Hne Hle. unfold blank_line_b64.
  destruct pixels as [|p pixels]; [contradiction|].
  apply Z.leb_le. apply b64_round_mono. exact Hle.
Qed.

Lemma blank_line_b64_exact (bright : pixel -> bool) (ratio : Q)
    (pixels : line) :
  (Z.of_nat (length pixels) * Zpos (Qden ratio) < 2 ^ 52)%Z ->
  blank_line_b64 bright ratio pixels = blank_line bright ratio pixels.
Proof.
  destruct pixels as [|p pixels]; [reflexivity|]. intros Hden.
  unfold blank_line_b64, blank_line.
  pose proof (bright_fraction_nonneg bright (p :: pixels) ltac:(discriminate))
    as H0.
  pose proof (bright_fraction_le_1 bright (p :: pixels) ltac:(discriminate))
    as H1.
  assert (Hd : Zpos (Qden (bright_fraction bright (p :: pixels)))
               = Z.of_nat (length (p :: pixels)))
    by apply Qden_div_nat.
  set (frac := bright_fraction bright (p :: pixels)) in *.
  destruct (Qlt_le_dec frac ratio) as [Hlt|Hle].
  - replace (Qle_bool ratio frac) with false.
    2:{ symmetry. apply not_true_is_false. intros H.
        apply Qle_bool_iff in H. exact (Qlt_not_le _ _ Hlt H). }
    apply Z.leb_gt.
    destruct (Qlt_le_dec ratio (inject_Z 2)) as [H2|H2].
    + apply (b64_round_lt frac ratio 1); try assumption.
      * lia.
      * vm_compute. reflexivity.
      * rewrite Hd. change (2 ^ 1)%Z with 2%Z.
        change (2 ^ 53)%Z with (2 ^ 52 * 2)%Z. lia.
    + apply Z.le_lt_trans with (b64_round 1); [apply b64_round_mono, H1|].
      apply Z.lt_le_trans with (b64_round (inject_Z 2));
        [vm_compute; reflexivity|].
      apply b64_round_mono, H2.
  - replace (Qle_bool ratio frac) with true
      by (symmetry; apply Qle_bool_iff; exact Hle).
    apply Z.leb_le. apply b64_round_mono. exact Hle.
Qed.

(** C2 (amended): the trim classifier [is_edge_white] marks a pixel of
    8-bit samples bright exactly when the mean of its channel values
    exceeds the threshold; the segmentation classifiers [is_white_row] and
    [is_white_column] mark a pixel bright exactly when every channel value
    exceeds the threshold.  Each classifies a line blank exactly when the
    line has pixels and the fraction of its bright pixels, rounded to
    binary64, is at least the ratio rounded to binary64.  That is the case
    whenever the fraction is at least the ratio, and in no other case
    when the length of the line times the denominator of the ratio is
    below 2^52. *)
Theorem line_classifiers
    (arr : ndarray) (threshold : Z) (ratio : Q) (pixels : line) (i : nat) :
  (forall p, uint8_pixel p ->
     (Binary64.edge_bright threshold p = true <->
      exists m, np_mean p = Some m /\ (inject_Z threshold < m)%Q)) /\
  (forall p, pixel_is_white threshold p = true <->
             forall c, In c p -> (threshold < c)%Z) /\
  Binary64.is_edge_white threshold ratio pixels =
    blank_line_b64 (Binary64.edge_bright threshold) ratio pixels /\
  (Forall uint8_pixel pixels ->
   Binary64.is_edge_white threshold ratio pixels =
     blank_line_b64 (mean_exceeds threshold) ratio pixels) /\
  Binary64.is_white_row arr threshold ratio i =
    blank_line_b64 (all_exceed threshold) ratio (row_pixels arr i) /\
  Binary64.is_white_column arr threshold ratio i =
    blank_line_b64 (all_exceed threshold) ratio (column_pixels arr i) /\
  (forall bright : pixel -> bool,
     blank_line_b64 bright ratio pixels = true <->
     pixels <> [] /\
     (b64_round ratio <= b64_round (bright_fraction bright pixels))%Z) /\
  (forall bright : pixel -> bool,
     pixels <> [] -> (ratio <= bright_fraction bright pixels)%Q ->
     blank_line_b64 bright ratio pixels = true) /\
  (forall bright : pixel -> bool,
     (Z.of_nat (length pixels) * Zpos (Qden ratio) < 2 ^ 52)%Z ->
     (blank_line_b64 bright ratio pixels = true <->
      pixels <> [] /\ (ratio <= bright_fraction bright pixels)%Q)).
Proof.
  repeat apply conj.
  - intros p Hp. rewrite (edge_bright_b64 threshold p Hp).
    rewrite <- (edge_bright_mean threshold p).
    unfold edge_bright, nan_gt. destruct (np_mean p) as [m|].
    + rewrite negb_true_iff. split.
      * intros H. exists m. split; [reflexivity|].
        apply Qnot_le_lt. intros Hle. apply Qle_bool_iff in Hle. congruence.
      * intros (m' & Hm & Hlt). inversion Hm; subst m'.
        apply not_true_is_false. intros Hle. apply Qle_bool_iff in Hle.
        apply (Qlt_not_le _ _ Hlt Hle).
    + split; [discriminate|]. intros (m' & Hm & _). discriminate.
  - intros p. unfold pixel_is_white. rewrite forallb_forall.
    split; intros H c Hc; specialize (H c Hc).
    + apply Z.gtb_lt in H. lia.
    + apply Z.gtb_lt. lia.
  - unfold Binary64.is_edge_white. rewrite map_map. apply np_mean_bool_b64.
  - apply is_edge_white_b64.
  - apply line_is_white_b64.
  - apply line_is_white_b64.
  - intros bright. unfold blank_line_b64. destruct pixels as [|p pixels].
    + split; [discriminate|]. intros [H _]. contradiction.
    + rewrite Z.leb_le. split.
      * intros H. split; [discriminate|exact H].
      * intros [_ H]. exact H.
  - intros bright. apply blank_line_b64_above.
  - intros bright Hden. rewrite (blank_line_b64_exact bright ratio pixels Hden).
    unfold blank_line. destruct pixels as [|p pixels].
    + split; [discriminate|]. intros [H _]. contradiction.
    + rewrite Qle_bool_iff. split.
      * intros H. split; [discriminate|exact H].
      * intros [_ H]. exact H.
Qed.

Lemma line_classifiers_witness :
  Forall uint8_pixel five_of_seven /\
  Binary64.is_edge_white 250 five_sevenths five_of_seven =
    blank_line_b64 (mean_exceeds 250) five_sevenths five_of_seven /\
  (Z.of_nat (length tinted_line) * Zpos (Qden (98 # 100)) < 2 ^ 52)%Z /\
  (blank_line_b64 (all_exceed 245) (98 # 100) tinted_line = true <->
   tinted_line <> [] /\
   (98 # 100 <= bright_fraction (all_exceed 245) tinted_line)%Q).
Proof.
  assert (Hu : Forall uint8_pixel five_of_seven).
  { repeat constructor; unfold uint8; lia. }
  assert (Hd : (Z.of_nat (length tinted_line) * Zpos (Qden (98 # 100))
                < 2 ^ 52)%Z) by reflexivity.
  split; [exact Hu|]. split; [|split; [exact Hd|]].
  - destruct (line_classifiers [five_of_seven] 250 five_sevenths
                five_of_seven 0) as (_ & _ & _ & H & _).
    exact (H Hu).
  - destruct (line_classifiers [tinted_line] 245 (98 # 100) tinted_line 0)
      as (_ & _ & _ & _ & _ & _ & _ & _ & H).
    exact (H (all_exceed 245) Hd).
Defined.

(** C2 as stated fails twice.  For the segmentation classifiers a line of
    one pixel (255, 255, 240) has mean 250 > 245, so every pixel is bright
    by the mean and the fraction 1 is at least 0.98, yet [is_white_row]
    and [is_white_column] classify it as content.  And the comparison is
    made after rounding: five bright pixels out of seven are a fraction
    below the float 0.7142857142857143, yet every classifier takes the
    line as blank at that ratio. *)
Lemma segmentation_classifier_not_mean_based :
  mean_exceeds 245 [255; 255; 240]%Z = true /\
  blank_line (mean_exceeds 245) (98 # 100) tinted_line = true /\
  is_edge_white 245 (98 # 100) tinted_line = true /\
  pixel_is_white 245 [255; 255; 240]%Z = false /\
  is_white_row [tinted_line] 245 (98 # 100) 0 = false /\
  is_white_column [tinted_line] 245 (98 # 100) 0 = false /\
  blank_line_b64 (mean_exceeds 245) (98 # 100) tinted_line = true /\
  Binary64.is_edge_white 245 (98 # 100) tinted_line = true /\
  Binary64.is_white_row [tinted_line] 245 (98 # 100) 0 = false /\
  Binary64.is_white_column [tinted_line] 245 (98 # 100) 0 = false /\
  (bright_fraction (all_exceed 245) five_of_seven < five_sevenths)%Q /\
  Binary64.is_white_row [five_of_seven] 245 five_sevenths 0 = true /\
  Binary64.is_white_column (map (fun p => [p]) five_of_seven)
    245 five_sevenths 0 = true /\
  (bright_fraction (mean_exceeds 250) five_of_seven < five_sevenths)%Q /\
  Binary64.is_edge_white 250 five_sevenths five_of_seven = true.
Proof. vm_compute. repeat split; reflexivity. Qed.

(** ** The border trimmer *)

Lemma edge_loop_le (white_at : nat -> bool) (remaining i count : nat) :
  count <= i -> edge_loop white_at remaining i count <= i + remaining.
Proof.
  revert i count. induction remaining as [|r IH]; intros i count Hc; simpl.
  - lia.
  - destruct (white_at i); [|lia].
    specialize (IH (S i) (S i) (Nat.le_refl _)). lia.
Qed.

Lemma edge_loop_stop (white_at : nat -> bool) (remaining i count : nat) :
  white_at i = false -> edge_loop white_at remaining i count = count.
Proof. intros H. destruct remaining; simpl; [|rewrite H]; reflexivity. Qed.

Lemma trim_white_border_le (img_array : ndarray) (brightness_threshold : Z)
    (white_ratio : Q) (max_trim : Z) (sides : string) :
  let '(top, bottom, lft, rgt) :=
    trim_white_border img_array brightness_threshold white_ratio max_trim sides in
  top <= trim_bound max_trim (height img_array) /\
  bottom <= trim_bound max_trim (height img_array) /\
  lft <= trim_bound max_trim (width img_array) /\
  rgt <= trim_bound max_trim (width img_array).
Proof.
  unfold trim_white_border.
  repeat split;
    (destruct (char_in _ _);
     [apply (edge_loop_le _ _ 0 0); apply Nat.le_refl | apply Nat.le_0_l]).
Qed.

Lemma trim_bound_quarter (max_trim : Z) (dim : nat) :
  (0 <= max_trim)%Z ->
  Z.of_nat (trim_bound max_trim dim) = Z.min max_trim (Z.of_nat dim / 4).
Proof.
  intros H. unfold trim_bound. apply Z2Nat.id.
  apply Z.min_glb; [exact H|]. apply Z.div_pos; lia.
Qed.

(** C3: on a sub-image of height [h >= 1] and width [w >= 1], with
    [max_trim >= 0] and any side mask, the four trim counts are at most
    [min(max_trim, h div 4)] (top, bottom) and [min(max_trim, w div 4)]
    (left, right); hence [h - top - bottom >= 1] and
    [w - left - right >= 1], and shrinking a crop box of that size by the
    counts leaves it non-empty and not inverted. *)
Theorem trim_counts_bounded (img_array : ndarray) (brightness_threshold : Z)
    (white_ratio : Q) (max_trim : Z) (sides : string) :
  1 <= height img_array -> 1 <= width img_array -> (0 <= max_trim)%Z ->
  let h := Z.of_nat (height img_array) in
  let w := Z.of_nat (width img_array) in
  let '(top, bottom, lft, rgt) :=
    trim_white_border img_array brightness_threshold white_ratio max_trim sides in
  (Z.of_nat top <= Z.min max_trim (h / 4))%Z /\
  (Z.of_nat bottom <= Z.min max_trim (h / 4))%Z /\
  (Z.of_nat lft <= Z.min max_trim (w / 4))%Z /\
  (Z.of_nat rgt <= Z.min max_trim (w / 4))%Z /\
  (1 <= h - Z.of_nat top - Z.of_nat bottom)%Z /\
  (1 <= w - Z.of_nat lft - Z.of_nat rgt)%Z /\
  (forall x1 y1 x2 y2 : Z,
      (x2 - x1 = w)%Z -> (y2 - y1 = h)%Z ->
      (x1 + Z.of_nat lft < x2 - Z.of_nat rgt)%Z /\
      (y1 + Z.of_nat top < y2 - Z.of_nat bottom)%Z).
Proof.
  intros Hh Hw Hmax h w.
  assert (Hh1 : (1 <= h)%Z) by (subst h; lia).
  assert (Hw1 : (1 <= w)%Z) by (subst w; lia).
  pose proof (trim_white_border_le img_array brightness_threshold white_ratio
                max_trim sides) as Hle.
  destruct (trim_white_border img_array brightness_threshold white_ratio
              max_trim sides) as [[[top bottom] lft] rgt].
  destruct Hle as (Ht & Hb & Hl & Hr).
  apply Nat2Z.inj_le in Ht, Hb, Hl, Hr.
  rewrite trim_bound_quarter in Ht, Hb, Hl, Hr by exact Hmax.
  fold h in Ht, Hb. fold w in Hl, Hr. clearbody h w.
  assert (Hqh : (4 * (h / 4) <= h)%Z) by (apply Z.mul_div_le; lia).
  assert (Hqw : (4 * (w / 4) <= w)%Z) by (apply Z.mul_div_le; lia).
  repeat split; try assumption; lia.
Qed.

Lemma trim_counts_bounded_witness :
  trim_white_border capped_image 250 (85 # 100) 10 "tblr" = (1, 0, 0, 0) /\
  (1 <= 4 - 1 - 0)%Z.
Proof.
  split; [reflexivity|].
  pose proof (trim_counts_bounded capped_image 250 (85 # 100) 10 "tblr"
                ltac:(vm_compute; lia) ltac:(vm_compute; lia) ltac:(lia)) as H.
  cbv zeta in H.
  change (trim_white_border capped_image 250 (85 # 100) 10 "tblr")
    with (1, 0, 0, 0) in H.
  destruct H as (_ & _ & _ & _ & H & _). exact H.
Defined.

(** *** The crop box of a cell *)

Lemma length_slice {A : Type} (a b : nat) (l : list A) :
  b <= length l -> length (slice a b l) = b - a.
Proof.
  intros Hb. unfold slice. rewrite length_firstn, length_skipn. lia.
Qed.

Lemma height_sub_array (arr : ndarray) (y1 y2 x1 x2 : nat) :
  y2 <= height arr -> height (sub_array arr y1 y2 x1 x2) = y2 - y1.
Proof.
  intros Hy. unfold height, sub_array. rewrite length_map.
  apply length_slice. exact Hy.
Qed.

Lemma width_sub_array (arr : ndarray) (y1 y2 x1 x2 : nat) :
  rectangular arr -> y1 < y2 -> y2 <= height arr -> x2 <= width arr ->
  width (sub_array arr y1 y2 x1 x2) = x2 - x1.
Proof.
  intros Hrect Hy Hy2 Hx. unfold sub_array, slice at 2, width at 1.
  destruct (skipn y1 arr) as [|rw rest] eqn:Hskip.
  - exfalso. assert (Hlen : length (skipn y1 arr) = 0) by (rewrite Hskip; reflexivity).
    rewrite length_skipn in Hlen. unfold height in Hy2. lia.
  - replace (y2 - y1) with (S (y2 - y1 - 1)) by lia. simpl.
    apply length_slice.
    assert (Hin : In rw arr).
    { rewrite <- (firstn_skipn y1 arr). apply in_or_app. right.
      rewrite Hskip. left. reflexivity. }
    unfold rectangular in Hrect. rewrite Forall_forall in Hrect.
    rewrite (Hrect rw Hin). exact Hx.
Qed.

(** Inside the pipeline: a cell cut from a rectangular array keeps a
    non-empty crop box inside the cell, trimmed or not. *)
Lemma crop_cell_rect_nonempty (arr : ndarray) (cfg : config)
    (vi hi y1 y2 x1 x2 : nat) :
  rectangular arr ->
  y1 < y2 -> y2 <= height arr -> x1 < x2 -> x2 <= width arr ->
  (0 <= trim_max cfg)%Z ->
  let '(cx1, cy1, cx2, cy2) := rect (crop_cell arr cfg vi (y1, y2) hi (x1, x2)) in
  (Z.of_nat x1 <= cx1 < cx2)%Z /\ (cx2 <= Z.of_nat x2)%Z /\
  (Z.of_nat y1 <= cy1 < cy2)%Z /\ (cy2 <= Z.of_nat y2)%Z.
Proof.
  intros Hrect Hy Hy2 Hx Hx2 Hmax. unfold crop_cell.
  destruct (trim cfg).
  - pose proof (trim_white_border_le (sub_array arr y1 y2 x1 x2)
                  (trim_threshold cfg) (80 # 100) (trim_max cfg)
                  (trim_sides cfg)) as Hle.
    destruct (trim_white_border (sub_array arr y1 y2 x1 x2) (trim_threshold cfg)
                (80 # 100) (trim_max cfg) (trim_sides cfg))
      as [[[top bottom] lft] rgt].
    destruct Hle as (Ht & Hb & Hl & Hr).
    rewrite height_sub_array in Ht, Hb by exact Hy2.
    rewrite width_sub_array in Hl, Hr by assumption.
    apply Nat2Z.inj_le in Ht, Hb, Hl, Hr.
    rewrite trim_bound_quarter in Ht, Hb, Hl, Hr by exact Hmax.
    assert (Hqh : (4 * (Z.of_nat (y2 - y1) / 4) <= Z.of_nat (y2 - y1))%Z)
      by (apply Z.mul_div_le; lia).
    assert (Hqw : (4 * (Z.of_nat (x2 - x1) / 4) <= Z.of_nat (x2 - x1))%Z)
      by (apply Z.mul_div_le; lia).
    simpl. lia.
  - simpl. lia.
Qed.

(** C6: when the edge lines of the cropped result are non-blank on
    every enabled side, running [trim_white_border] again on the cropped
    result with the same parameters returns (0, 0, 0, 0). *)
Theorem trim_fixed_point (img_array : ndarray) (brightness_threshold : Z)
    (white_ratio : Q) (max_trim : Z) (sides : string) :
  let '(top, bottom, lft, rgt) :=
    trim_white_border img_array brightness_threshold white_ratio max_trim sides in
  let cropped :=
    sub_array img_array top (height img_array - bottom)
              lft (width img_array - rgt) in
  let blank := is_edge_white brightness_threshold white_ratio in
  (char_in "t" (str_lower sides) = true ->
   blank (row_pixels cropped 0) = false) ->
  (char_in "b" (str_lower sides) = true ->
   blank (row_pixels cropped (height cropped - 1)) = false) ->
  (char_in "l" (str_lower sides) = true ->
   blank (column_pixels cropped 0) = false) ->
  (char_in "r" (str_lower sides) = true ->
   blank (column_pixels cropped (width cropped - 1)) = false) ->
  trim_white_border cropped brightness_threshold white_ratio max_trim sides
  = (0, 0, 0, 0).
Proof.
  destruct (trim_white_border img_array brightness_threshold white_ratio
              max_trim sides) as [[[top bottom] lft] rgt].
  intros cropped blank Ht Hb Hl Hr. unfold trim_white_border.
  destruct (char_in "t" (str_lower sides));
    [rewrite edge_loop_stop by (rewrite Nat.sub_0_r || idtac; apply Ht; reflexivity)|];
  (destruct (char_in "b" (str_lower sides));
    [rewrite edge_loop_stop by (rewrite Nat.sub_0_r; apply Hb; reflexivity)|]);
  (destruct (char_in "l" (str_lower sides));
    [rewrite edge_loop_stop by (apply Hl; reflexivity)|]);
  (destruct (char_in "r" (str_lower sides));
    [rewrite edge_loop_stop by (rewrite Nat.sub_0_r; apply Hr; reflexivity)|]);
  reflexivity.
Qed.

Lemma trim_fixed_point_witness :
  trim_white_border capped_image 250 (85 # 100) 10 "tblr" = (1, 0, 0, 0) /\
  trim_white_border (sub_array capped_image 1 4 0 4) 250 (85 # 100) 10 "tblr"
  = (0, 0, 0, 0).
Proof.
  split; [reflexivity|].
  pose proof (trim_fixed_point capped_image 250 (85 # 100) 10 "tblr") as H.
  change (trim_white_border capped_image 250 (85 # 100) 10 "tblr")
    with (1, 0, 0, 0) in H.
  cbv beta iota zeta in H.
  apply H; intros _; reflexivity.
Defined.

(** ** Output names *)

(** C7: with a suffix list of length [m >= 1], the name is the base
    name followed by the suffix at index [n mod m], where
    [n = row * total_cols + col]; two cells whose linear indices differ
    by [m] get the same name. *)
Theorem suffix_list_cyclic (base_name : string) (row col total_cols : Z)
    (suffix_template : string) (suffixes : list string) :
  1 <= length suffixes ->
  let n := (row * total_cols + col)%Z in
  let m := Z.of_nat (length suffixes) in
  generate_output_filename base_name row col total_cols suffix_template
    (Some suffixes)
  = Ok (append base_name (nth (Z.to_nat (n mod m)) suffixes EmptyString)) /\
  Z.to_nat (n mod m) < length suffixes /\
  (forall row' col' total_cols' : Z,
      (row' * total_cols' + col' = n + m)%Z ->
      generate_output_filename base_name row' col' total_cols' suffix_template
        (Some suffixes)
      = generate_output_filename base_name row col total_cols suffix_template
          (Some suffixes)).
Proof.
  intros Hlen n m.
  destruct suffixes as [|s0 rest]; [simpl in Hlen; lia|].
  assert (Hm : (0 < m)%Z) by (subst m; simpl length; lia).
  split; [reflexivity|]. split.
  - pose proof (Z.mod_pos_bound n m Hm) as Hb. subst m. lia.
  - intros row' col' total_cols' Heq.
    unfold generate_output_filename. rewrite Heq. fold m.
    replace ((n + m) mod m)%Z with (n mod m)%Z; [reflexivity|].
    rewrite <- (Z.mul_1_l m) at 2. rewrite Z.mod_add by lia. reflexivity.
Qed.

Lemma suffix_list_cyclic_witness :
  generate_output_filename "base" 0 1 2 "{name}_{row}_{col}"
    (Some ["_a"; "_b"]%string) = Ok "base_b"%string /\
  generate_output_filename "base" 1 1 2 "{name}_{row}_{col}"
    (Some ["_a"; "_b"]%string)
  = generate_output_filename "base" 0 1 2 "{name}_{row}_{col}"
      (Some ["_a"; "_b"]%string).
Proof.
  pose proof (suffix_list_cyclic "base" 0 1 2 "{name}_{row}_{col}"
                ["_a"; "_b"]%string ltac:(simpl; lia)) as H.
  cbv zeta in H. destruct H as (H1 & _ & H3).
  split; [exact H1|]. apply H3. reflexivity.
Defined.

(** *** Templates *)

Lemma append_nil_r (s : string) : append s EmptyString = s.
Proof. induction s as [|c s IH]; simpl; [|rewrite IH]; reflexivity. Qed.

Lemma append_assoc (s t u : string) :
  append (append s t) u = append s (append t u).
Proof. induction s as [|c s IH]; simpl; [|rewrite IH]; reflexivity. Qed.

Lemma omap_String_append {c : ascii} {s : string} (m : outcome string) :
  omap (String c) (omap (append s) m) = omap (append (String c s)) m.
Proof. destruct m; reflexivity. Qed.

Lemma omap_append_append (v s : string) (m : outcome string) :
  omap (append v) (omap (append s) m) = omap (append (append v s)) m.
Proof. destruct m; simpl; [rewrite append_assoc|..]; reflexivity. Qed.

Lemma plain_char_neq (c : ascii) :
  plain_char c = true -> Ascii.eqb c "{" = false /\ Ascii.eqb c "}" = false.
Proof.
  unfold plain_char. intros H. apply andb_true_iff in H.
  destruct H as [H1 H2]. apply negb_true_iff in H1, H2. split; assumption.
Qed.

(** Inside a field, ordinary characters are collected up to the closing
    brace, and the field is looked up there. *)
Lemma vformat_field (kw : kwargs) (key acc rest : string) :
  plain_name key = true ->
  vformat kw (Some acc) (append key (String "}" rest))
  = bind (get_field kw (append acc key))
         (fun v => omap (append v) (vformat kw None rest)).
Proof.
  revert acc. induction key as [|c key IH]; intros acc Hplain.
  - rewrite append_nil_r. reflexivity.
  - simpl in Hplain. apply andb_true_iff in Hplain. destruct Hplain as [Hc Hkey].
    apply andb_true_iff in Hc. destruct Hc as [Hc Hsp].
    apply plain_char_neq in Hc. destruct Hc as [Hl Hr].
    apply negb_true_iff in Hsp.
    cbn [append vformat]. rewrite Hl, Hr, Hsp.
    rewrite IH by exact Hkey. rewrite append_assoc. reflexivity.
Qed.

Lemma vformat_open_field (kw : kwargs) (key rest : string) :
  plain_name key = true ->
  vformat kw None (String "{" (append key (String "}" rest)))
  = bind (get_field kw key)
         (fun v => omap (append v) (vformat kw None rest)).
Proof.
  intros Hplain.
  transitivity (vformat kw (Some EmptyString) (append key (String "}" rest)));
    [|exact (vformat_field kw key EmptyString rest Hplain)].
  destruct key as [|c key]; [reflexivity|].
  simpl in Hplain. apply andb_true_iff in Hplain. destruct Hplain as [Hc _].
  apply andb_true_iff in Hc. destruct Hc as [Hc _].
  apply plain_char_neq in Hc. destruct Hc as [Hl _].
  cbn [append]. cbn [vformat]. rewrite Hl. reflexivity.
Qed.

Lemma get_field_placeholder (base_name : string) (row col total_cols : Z)
    (p : placeholder) :
  get_field (name_kwargs base_name row col total_cols) (placeholder_key p)
  = Ok (placeholder_value base_name row col total_cols p).
Proof. destruct p; reflexivity. Qed.

Lemma plain_placeholder_key (p : placeholder) :
  plain_name (placeholder_key p) = true.
Proof. destruct p; reflexivity. Qed.


(** The text of well-formed segments is consumed piece by piece, whatever
    follows it. *)
Lemma vformat_segments (base_name : string) (row col total_cols : Z)
    (segs : list segment) (rest : string) :
  forallb segment_ok segs = true ->
  vformat (name_kwargs base_name row col total_cols) None
          (append (template_of segs) rest)
  = omap (append (render base_name row col total_cols segs))
         (vformat (name_kwargs base_name row col total_cols) None rest).
Proof.
  intros Hok. induction segs as [|sg segs IH].
  - cbn [template_of render append].
    destruct (vformat _ None rest); reflexivity.
  - simpl in Hok. apply andb_true_iff in Hok. destruct Hok as [Hsg Hok].
    specialize (IH Hok). destruct sg as [c|p| |].
    + apply plain_char_neq in Hsg. destruct Hsg as [Hl Hr].
      cbn [template_of render append vformat]. rewrite Hl, Hr, IH.
      apply omap_String_append.
    + cbn [template_of render]. cbn [append]. rewrite append_assoc.
      cbn [append].
      rewrite vformat_open_field by apply plain_placeholder_key.
      rewrite get_field_placeholder. cbn [bind]. rewrite IH.
      apply omap_append_append.
    + cbn [template_of render append vformat]. cbn. rewrite IH.
      apply omap_String_append.
    + cbn [template_of render append vformat]. cbn. rewrite IH.
      apply omap_String_append.
Qed.

Lemma generate_from_template (base_name : string) (row col total_cols : Z)
    (template : string) :
  generate_output_filename base_name row col total_cols template None
  = vformat (name_kwargs base_name row col total_cols) None template.
Proof. reflexivity. Qed.









(** ** The grid *)

Lemma map_fst_combine_seq {A : Type} (l : list A) (from : nat) :
  map fst (combine (seq from (length l)) l) = seq from (length l).
Proof.
  revert from. induction l as [|x l IH]; intros from; [reflexivity|].
  simpl. rewrite IH. reflexivity.
Qed.

Lemma length_enumerate {A : Type} (l : list A) :
  length (enumerate l) = length l.
Proof.
  unfold enumerate. rewrite length_combine, length_seq. apply Nat.min_id.
Qed.

Lemma map_list_prod {A B C D : Type} (f : A -> C) (g : B -> D)
    (l : list A) (l' : list B) :
  map (fun ab => (f (fst ab), g (snd ab))) (list_prod l l')
  = list_prod (map f l) (map g l').
Proof.
  induction l as [|a l IH]; [reflexivity|].
  simpl. rewrite map_app, IH, !map_map. reflexivity.
Qed.

Lemma crop_cell_index (arr : ndarray) (cfg : config)
    (vi : nat) (v : Interval) (hi : nat) (h : Interval) :
  row (crop_cell arr cfg vi v hi h) = vi /\
  col (crop_cell arr cfg vi v hi h) = hi.
Proof.
  destruct v as [y1 y2], h as [x1 x2]. unfold crop_cell.
  destruct (if trim cfg then _ else _) as [[[top bottom] lft] rgt].
  split; reflexivity.
Qed.

Lemma assemble_list_prod (arr : ndarray) (cfg : config)
    (rows cols : list Interval) :
  assemble arr cfg rows cols
  = map (fun c => crop_cell arr cfg (fst (fst c)) (snd (fst c))
                            (fst (snd c)) (snd (snd c)))
        (list_prod (enumerate rows) (enumerate cols)).
Proof.
  unfold assemble. induction (enumerate rows) as [|[vi v] L IH];
    [reflexivity|].
  simpl. rewrite map_app, map_map, IH. f_equal.
  apply map_ext. intros [hi h]. reflexivity.
Qed.

Lemma slice_name_crop_cell (base_name : string) (arr : ndarray) (cfg : config)
    (total_cols vi hi : nat) (v h : Interval) :
  slice_name base_name cfg total_cols (crop_cell arr cfg vi v hi h)
  = generate_output_filename base_name (Z.of_nat vi) (Z.of_nat hi)
      (Z.of_nat total_cols) (suffix_template cfg) (suffix_list cfg).
Proof.
  unfold slice_name.
  destruct (crop_cell_index arr cfg vi v hi h) as [-> ->]. reflexivity.
Qed.

(** C9: the cells come out in row-major order, one per pair of a row
    interval and a column interval, [|rows| * |cols|] in all; on a grid
    of two rows and two columns the template [{name}_{N}] names them
    base_1, base_2, base_3, base_4 in that order. *)
Theorem assemble_row_major (arr : ndarray) (cfg : config)
    (rows cols : list Interval) :
  length (assemble arr cfg rows cols) = length rows * length cols /\
  map (fun s => (row s, col s)) (assemble arr cfg rows cols)
  = list_prod (seq 0 (length rows)) (seq 0 (length cols)) /\
  assemble arr cfg rows cols
  = map (fun c => crop_cell arr cfg (fst (fst c)) (snd (fst c))
                            (fst (snd c)) (snd (snd c)))
        (list_prod (enumerate rows) (enumerate cols)) /\
  (forall r1 r2 c1 c2 : Interval,
      let cfg' := with_template cfg "{name}_{N}" in
      let run := save_all (slice_name "base" cfg' 2)
                          (assemble arr cfg' [r1; r2] [c1; c2]) 0 in
      map fst (fst run)
      = ["base_1"; "base_2"; "base_3"; "base_4"]%string /\
      map snd (fst run) = assemble arr cfg' [r1; r2] [c1; c2] /\
      snd run = Ok 4) /\
  (let run := split_composite_image cross_image "base" cross_config in
   v_regions cross_image cross_config = [(0, 1); (2, 3)] /\
   h_regions cross_image cross_config = [(0, 1); (2, 3)] /\
   map fst (fst run) = ["base_1"; "base_2"; "base_3"; "base_4"]%string /\
   map (fun ns => rect (snd ns)) (fst run)
   = [(0, 0, 1, 1); (2, 0, 3, 1); (0, 2, 1, 3); (2, 2, 3, 3)]%Z /\
   snd run = Ok 4).
Proof.
  split; [|split; [|split; [|split]]].
  - rewrite assemble_list_prod, length_map, length_prod, !length_enumerate.
    reflexivity.
  - rewrite assemble_list_prod, map_map.
    rewrite (map_ext _ (fun c => (fst (fst c), fst (snd c)))).
    + rewrite (map_list_prod fst fst). unfold enumerate.
      rewrite !map_fst_combine_seq. reflexivity.
    + intros [[vi v] [hi h]]. simpl.
      destruct (crop_cell_index arr cfg vi v hi h) as [-> ->]. reflexivity.
  - apply assemble_list_prod.
  - intros r1 r2 c1 c2 cfg' run. subst run.
    unfold assemble, enumerate. cbn [length seq combine flat_map map app].
    cbn [save_all]. rewrite !slice_name_crop_cell.
    repeat split; reflexivity.
  - vm_compute. repeat split; reflexivity.
Qed.

(** ** The run over the grid *)

Lemma save_all_result (name_of : Slice -> outcome string)
    (slices : list Slice) (count : nat) :
  match snd (save_all name_of slices count) with
  | Ok c =>
      c = count + length slices /\
      map snd (fst (save_all name_of slices count)) = slices
  | Raise e => exists s, In s slices /\ name_of s = Raise e
  | Unmodelled => exists s, In s slices /\ name_of s = Unmodelled
  end.
Proof.
  revert count. induction slices as [|s rest IH]; intros count.
  - simpl. split; [lia|reflexivity].
  - simpl. destruct (name_of s) as [nm|e|] eqn:Hname.
    + specialize (IH (S count)).
      destruct (save_all name_of rest (S count)) as [saved r]. simpl in *.
      destruct r as [c|e|].
      * destruct IH as [Hc Hs]. split; [lia|]. rewrite Hs. reflexivity.
      * destruct IH as (s' & Hin & Hs'). exists s'. auto.
      * destruct IH as (s' & Hin & Hs'). exists s'. auto.
    + simpl. exists s. auto.
    + simpl. exists s. auto.
Qed.

Lemma save_all_ok (name_of : Slice -> outcome string)
    (slices : list Slice) (count : nat) :
  Forall (fun s => exists nm, name_of s = Ok nm) slices ->
  snd (save_all name_of slices count) = Ok (count + length slices).
Proof.
  intros Hall. pose proof (save_all_result name_of slices count) as H.
  rewrite Forall_forall in Hall.
  destruct (snd (save_all name_of slices count)) as [c|e|].
  - destruct H as [-> _]. reflexivity.
  - destruct H as (s & Hin & Hs). destruct (Hall s Hin) as [nm Hnm]. congruence.
  - destruct H as (s & Hin & Hs). destruct (Hall s Hin) as [nm Hnm]. congruence.
Qed.

Lemma or_whole_axis_nonempty (found : list Interval) (axis_size : nat) :
  or_whole_axis found axis_size <> [].
Proof. destruct found; discriminate. Qed.

Lemma assemble_names_ok (base_name : string) (arr : ndarray) (cfg : config)
    (total_cols : nat) (rows cols : list Interval) :
  (forall vi hi : nat, exists nm,
      generate_output_filename base_name (Z.of_nat vi) (Z.of_nat hi)
        (Z.of_nat total_cols) (suffix_template cfg) (suffix_list cfg) = Ok nm) ->
  Forall (fun s => exists nm, slice_name base_name cfg total_cols s = Ok nm)
         (assemble arr cfg rows cols).
Proof.
  intros Hname. rewrite assemble_list_prod. apply Forall_map.
  apply Forall_forall. intros [[vi v] [hi h]] _. simpl.
  rewrite slice_name_crop_cell. apply Hname.
Qed.

Lemma length_assemble (arr : ndarray) (cfg : config)
    (rows cols : list Interval) :
  length (assemble arr cfg rows cols) = length rows * length cols.
Proof.
  rewrite assemble_list_prod, length_map, length_prod, !length_enumerate.
  reflexivity.
Qed.

(** C5: when [find_regions] finds nothing on an axis, the run uses the
    single interval [(0, axis_size)] for it; the grid is never empty, at
    least one slice is cut, and the run returns a count of at least one:
    finding no region is not an error (only the resolution of a name can
    raise). *)
Theorem whole_axis_fallback (arr : ndarray) (cfg : config) (base_name : string) :
  let found_v :=
    find_regions (min_size cfg) (min_gap cfg) (height arr)
      (is_white_row arr (white_threshold cfg) (white_ratio cfg)) in
  let found_h :=
    find_regions (min_size cfg) (min_gap cfg) (width arr)
      (is_white_column arr (white_threshold cfg) (white_ratio cfg)) in
  let slices := assemble arr cfg (v_regions arr cfg) (h_regions arr cfg) in
  let total := length (v_regions arr cfg) * length (h_regions arr cfg) in
  (found_v = [] -> v_regions arr cfg = [(0, height arr)]) /\
  (found_h = [] -> h_regions arr cfg = [(0, width arr)]) /\
  (found_v <> [] -> v_regions arr cfg = found_v) /\
  (found_h <> [] -> h_regions arr cfg = found_h) /\
  v_regions arr cfg <> [] /\ h_regions arr cfg <> [] /\
  length slices = total /\ 1 <= total /\
  match snd (split_composite_image arr base_name cfg) with
  | Ok count =>
      count = total /\
      map snd (fst (split_composite_image arr base_name cfg)) = slices
  | Raise e =>
      exists s, In s slices /\
        slice_name base_name cfg (length (h_regions arr cfg)) s = Raise e
  | Unmodelled =>
      exists s, In s slices /\
        slice_name base_name cfg (length (h_regions arr cfg)) s = Unmodelled
  end /\
  (forall (s0 : string) (l : list string),
      suffix_list cfg = Some (s0 :: l) ->
      snd (split_composite_image arr base_name cfg) = Ok total) /\
  snd (split_composite_image arr base_name
         (with_template cfg "{name}_{row}_{col}")) = Ok total.
Proof.
  intros found_v found_h slices total.
  assert (Hv : v_regions arr cfg <> []) by apply or_whole_axis_nonempty.
  assert (Hh : h_regions arr cfg <> []) by apply or_whole_axis_nonempty.
  assert (Hlen : length slices = total) by apply length_assemble.
  assert (Htotal : 1 <= total).
  { subst total. destruct (v_regions arr cfg); [contradiction|].
    destruct (h_regions arr cfg); [contradiction|]. simpl. lia. }
  split; [|split; [|split; [|split]]].
  - intros H. unfold v_regions. fold found_v. rewrite H. reflexivity.
  - intros H. unfold h_regions. fold found_h. rewrite H. reflexivity.
  - intros H. unfold v_regions. fold found_v.
    destruct found_v; [contradiction|reflexivity].
  - intros H. unfold h_regions. fold found_h.
    destruct found_h; [contradiction|reflexivity].
  - split; [exact Hv|]. split; [exact Hh|]. split; [exact Hlen|].
    split; [exact Htotal|]. split; [|split].
    + unfold split_composite_image. fold slices.
      pose proof (save_all_result
                    (slice_name base_name cfg (length (h_regions arr cfg)))
                    slices 0) as H.
      destruct (snd (save_all _ slices 0)); [|exact H|exact H].
      destruct H as [Hc Hs]. split; [lia|exact Hs].
    + intros s0 l Hsuffix. unfold split_composite_image. fold slices.
      rewrite save_all_ok; [f_equal; exact Hlen|].
      apply assemble_names_ok. intros vi hi. rewrite Hsuffix.
      eexists. reflexivity.
    + unfold split_composite_image.
      change (h_regions arr (with_template cfg "{name}_{row}_{col}"))
        with (h_regions arr cfg).
      change (v_regions arr (with_template cfg "{name}_{row}_{col}"))
        with (v_regions arr cfg).
      rewrite save_all_ok; [rewrite length_assemble; reflexivity|].
      apply assemble_names_ok. intros vi hi.
      change (suffix_template (with_template cfg "{name}_{row}_{col}"))
        with (template_of [Hole P_name; Chr "_"; Hole P_row;
                           Chr "_"; Hole P_col]).
      change (suffix_list (with_template cfg "{name}_{row}_{col}"))
        with (@None (list string)).
      rewrite generate_from_template.
      rewrite <- (append_nil_r (template_of _)), vformat_segments
        by reflexivity.
      eexists. reflexivity.
Qed.

Lemma whole_axis_fallback_witness :
  v_regions blank_image default_config = [(0, 2)] /\
  h_regions blank_image default_config = [(0, 2)] /\
  snd (split_composite_image blank_image "base" default_config) = Ok 1.
Proof.
  pose proof (whole_axis_fallback blank_image default_config "base") as H.
  cbv zeta in H. destruct H as (Hv & Hh & _ & _ & _ & _ & _ & _ & _ & _ & Hrun).
  split; [apply Hv; reflexivity|]. split; [apply Hh; reflexivity|].
  exact Hrun.
Defined.


(** * Further properties *)

(** ** Axes without content, axes without gaps *)

(** X1: An axis without a content line (an empty axis included) has no
    region. *)
Theorem find_regions_all_blank (min_size min_gap : Z) (axis_size : nat)
    (is_white_func : nat -> bool) :
  (forall i, i < axis_size -> is_white_func i = true) ->
  find_regions min_size min_gap axis_size is_white_func = [].
Proof.
  intros Hall. unfold find_regions.
  rewrite loop_blank_idle; [reflexivity|reflexivity|].
  intros k Hk. rewrite nth_map_seq by lia. apply Hall. lia.
Qed.

Lemma find_regions_all_blank_witness :
  find_regions 1 1 3 (fun _ => true) = [].
Proof.
  apply find_regions_all_blank. intros i _. reflexivity.
Defined.

Lemma content_axis_regions (min_size min_gap : Z) (axis_size : nat)
    (is_white_func : nat -> bool) :
  0 < axis_size ->
  (forall i, i < axis_size -> is_white_func i = false) ->
  find_regions min_size min_gap axis_size is_white_func
  = if (Z.of_nat axis_size >=? min_size)%Z then [(0, axis_size)] else [].
Proof.
  intros Hpos Hall. unfold find_regions.
  rewrite loop_content_open; [|reflexivity|exact Hpos|].
  - simpl. rewrite Z.sub_0_r. reflexivity.
  - intros k Hk. rewrite nth_map_seq by lia. apply Hall. lia.
Qed.

(** X2: An axis of content lines only is one region, kept when it is at
    least [min_size] long and dropped otherwise; with the fallback of the
    caller it is the whole axis in both cases. *)
Theorem find_regions_all_content (min_size min_gap : Z) (axis_size : nat)
    (is_white_func : nat -> bool) :
  0 < axis_size ->
  (forall i, i < axis_size -> is_white_func i = false) ->
  find_regions min_size min_gap axis_size is_white_func
  = (if (Z.of_nat axis_size >=? min_size)%Z then [(0, axis_size)] else []) /\
  or_whole_axis (find_regions min_size min_gap axis_size is_white_func)
                axis_size = [(0, axis_size)].
Proof.
  intros Hpos Hall.
  rewrite (content_axis_regions min_size min_gap axis_size is_white_func Hpos Hall).
  split; [reflexivity|]. destruct (_ >=? _)%Z; reflexivity.
Qed.

Lemma find_regions_all_content_witness :
  find_regions 2 1 3 (fun _ => false) = [(0, 3)] /\
  find_regions 5 1 3 (fun _ => false) = [].
Proof.
  split.
  - apply (proj1 (find_regions_all_content 2 1 3 (fun _ => false)
                    ltac:(lia) (fun i _ => eq_refl))).
  - apply (proj1 (find_regions_all_content 5 1 3 (fun _ => false)
                    ltac:(lia) (fun i _ => eq_refl))).
Defined.

(** ** Blank runs inside an interval, content outside the intervals *)

Section ScanMore.

Variables (min_size min_gap : Z) (n : nat) (W : list bool).

Local Abbreviation step := (region_step min_size min_gap n W).
Local Abbreviation loop := (region_loop min_size min_gap n W).

Lemma gap_inv_step (i : nat) (st : scan_state) :
  gap_inv min_gap n W i st -> gap_inv min_gap n W (S i) (step st i).
Proof.
  intros (Hreg & Hopen). unfold region_step.
  destruct (nth i W false) eqn:Hw; destruct (in_region st) eqn:Hin; simpl.
  - set (r := gap_scan (n - i) W n i).
    destruct ((Z.of_nat r - Z.of_nat i >=? min_gap)%Z || (r =? n)) eqn:Hclose.
    + split; [|discriminate]. simpl.
      destruct (Z.of_nat i - Z.of_nat (start st) >=? min_size)%Z; [|exact Hreg].
      apply Forall_app. split; [exact Hreg|].
      constructor; [|constructor]. intros j Hj. apply Hopen; auto.
    + split; [exact Hreg|]. rewrite Hin. intros _ j Hj.
      destruct (Nat.eq_dec j i) as [->|Hne]; [|apply Hopen; auto; lia].
      intros _. fold r. apply orb_false_iff in Hclose.
      destruct Hclose as [Hc1 Hc2]. rewrite Z.geb_leb in Hc1.
      apply Z.leb_gt in Hc1. apply Nat.eqb_neq in Hc2. split; [lia|exact Hc2].
  - split; [exact Hreg|]. rewrite Hin. discriminate.
  - split; [exact Hreg|]. rewrite Hin. intros _ j Hj.
    destruct (Nat.eq_dec j i) as [->|Hne]; [|apply Hopen; auto; lia].
    intros Hwj. congruence.
  - split; [exact Hreg|]. simpl. intros _ j Hj.
    replace j with i by lia. intros Hwj. congruence.
Qed.

Lemma gap_inv_loop (c : nat) :
  gap_inv min_gap n W c (loop 0 c (mk_scan [] false 0)).
Proof.
  induction c as [|c IH].
  - split; [constructor|discriminate].
  - rewrite loop_snoc. apply gap_inv_step. exact IH.
Qed.

Lemma scan_result_noise :
  let st := loop 0 n (mk_scan [] false 0) in
  let out := if in_region st
                && (Z.of_nat n - Z.of_nat (start st) >=? min_size)%Z
             then regions st ++ [(start st, n)] else regions st in
  Forall (noise_inside min_gap n W) out.
Proof.
  intros st out. destruct (gap_inv_loop n) as [Hreg Hopen].
  fold st in Hreg, Hopen. subst out.
  destruct (in_region st); simpl; [|exact Hreg].
  destruct (Z.of_nat n - Z.of_nat (start st) >=? min_size)%Z; [|exact Hreg].
  apply Forall_app. split; [exact Hreg|].
  constructor; [|constructor]. intros j Hj. apply Hopen; auto.
Qed.

(** A measured run that is noise leaves no room for [min_gap] blank
    lines in a row. *)
Lemma noise_at_short_run (j g : nat) :
  0 < g -> j + g <= n ->
  (forall k, j <= k < j + g -> nth k W false = true) ->
  noise_at min_gap n W j ->
  (Z.of_nat g < min_gap)%Z.
Proof.
  intros Hg Hle Hrun Hnoise.
  destruct Hnoise as [Hshort Hne]; [apply Hrun; lia|].
  destruct (gap_scan_spec n W (n - j) j (Nat.le_refl _)) as (H1 & H2 & H3 & H4).
  set (r := gap_scan (n - j) W n j) in *.
  assert (Hr : j + g <= r).
  { destruct (Nat.le_gt_cases (j + g) r) as [|Hlt]; [assumption|].
    assert (nth r W false = true) by (apply Hrun; lia).
    assert (nth r W false = false) by (apply H4; lia). congruence. }
  lia.
Qed.

Hypothesis small_min_size : (min_size <= 1)%Z.

Lemma cover_inv_step (i : nat) (st : scan_state) :
  cover_inv W i st -> cover_inv W (S i) (step st i).
Proof.
  intros (Hstart & Hcov). unfold region_step.
  destruct (nth i W false) eqn:Hw; destruct (in_region st) eqn:Hin; simpl.
  - specialize (Hstart eq_refl).
    set (r := gap_scan (n - i) W n i).
    destruct ((Z.of_nat r - Z.of_nat i >=? min_gap)%Z || (r =? n)).
    + split; [discriminate|]. simpl. intros j Hj Hwj.
      assert (Hji : j < i).
      { destruct (Nat.eq_dec j i) as [->|]; [congruence|lia]. }
      left.
      replace (Z.of_nat i - Z.of_nat (start st) >=? min_size)%Z with true
        by (symmetry; apply Z.geb_le; lia).
      apply Exists_app. destruct (Hcov j Hji Hwj) as [Hc|[_ Hs]].
      * left. exact Hc.
      * right. constructor. simpl. lia.
    + split; [rewrite Hin; intros _; lia|]. intros j Hj Hwj.
      assert (Hji : j < i).
      { destruct (Nat.eq_dec j i) as [->|]; [congruence|lia]. }
      destruct (Hcov j Hji Hwj) as [Hc|[_ Hs]];
        [left; exact Hc|right; split; [exact Hin|exact Hs]].
  - split; [rewrite Hin; discriminate|]. intros j Hj Hwj.
    assert (Hji : j < i).
    { destruct (Nat.eq_dec j i) as [->|]; [congruence|lia]. }
    destruct (Hcov j Hji Hwj) as [Hc|[Ht _]]; [left; exact Hc|discriminate].
  - specialize (Hstart eq_refl).
    split; [rewrite Hin; intros _; lia|]. intros j Hj Hwj.
    destruct (Nat.eq_dec j i) as [->|Hne].
    + right. split; [exact Hin|lia].
    + destruct (Hcov j ltac:(lia) Hwj) as [Hc|[_ Hs]];
        [left; exact Hc|right; split; [exact Hin|exact Hs]].
  - split; [simpl; intros _; lia|]. simpl. intros j Hj Hwj.
    destruct (Nat.eq_dec j i) as [->|Hne].
    + right. split; [reflexivity|lia].
    + destruct (Hcov j ltac:(lia) Hwj) as [Hc|[Ht _]]; [left; exact Hc|].
      congruence.
Qed.

Lemma cover_inv_loop (c : nat) :
  cover_inv W c (loop 0 c (mk_scan [] false 0)).
Proof.
  induction c as [|c IH].
  - split; [discriminate|]. intros j Hj. lia.
  - rewrite loop_snoc. apply cover_inv_step. exact IH.
Qed.

Lemma scan_result_covers (j : nat) :
  j < n -> nth j W false = false ->
  let st := loop 0 n (mk_scan [] false 0) in
  covered (if in_region st
              && (Z.of_nat n - Z.of_nat (start st) >=? min_size)%Z
           then regions st ++ [(start st, n)] else regions st) j.
Proof.
  intros Hj Hwj st. destruct (cover_inv_loop n) as [Hstart Hcov].
  fold st in Hstart, Hcov.
  destruct (Hcov j Hj Hwj) as [Hc|[Hin Hs]].
  - destruct (in_region st && _); [|exact Hc].
    apply Exists_app. left. exact Hc.
  - specialize (Hstart Hin). rewrite Hin. simpl.
    replace (Z.of_nat n - Z.of_nat (start st) >=? min_size)%Z with true
      by (symmetry; apply Z.geb_le; lia).
    apply Exists_app. right. constructor. simpl. lia.
Qed.

End ScanMore.

(** X3: No interval returned by [find_regions] holds [min_gap] blank lines
    in a row: a run of [g >= 1] blank lines inside an interval has
    [g < min_gap]. *)
Theorem find_regions_no_long_gap
    (min_size min_gap : Z) (axis_size : nat) (is_white_func : nat -> bool) :
  Forall (fun r : Interval =>
            forall j g : nat,
              0 < g -> fst r <= j -> j + g <= snd r ->
              (forall k, j <= k < j + g -> is_white_func k = true) ->
              (Z.of_nat g < min_gap)%Z)
         (find_regions min_size min_gap axis_size is_white_func).
Proof.
  destruct (find_regions_ok min_size min_gap axis_size is_white_func) as [Hok _].
  pose proof (scan_result_noise min_size min_gap axis_size
                (map is_white_func (seq 0 axis_size))) as Hnoise.
  cbv zeta in Hnoise. fold (find_regions min_size min_gap axis_size is_white_func)
    in Hnoise.
  rewrite Forall_forall in *. intros r Hr j g Hg Hj Hjg Hrun.
  destruct (Hok r Hr) as (_ & Hend & _).
  apply (noise_at_short_run min_gap axis_size
           (map is_white_func (seq 0 axis_size)) j g Hg); [lia| |].
  - intros k Hk. rewrite nth_map_seq by lia. apply Hrun. exact Hk.
  - apply (Hnoise r Hr). lia.
Qed.

(** X4: With [min_size <= 1] nothing is discarded: every content line of
    the axis lies in one of the returned intervals. *)
Theorem find_regions_covers_content
    (min_size min_gap : Z) (axis_size : nat) (is_white_func : nat -> bool)
    (j : nat) :
  (min_size <= 1)%Z -> j < axis_size -> is_white_func j = false ->
  covered (find_regions min_size min_gap axis_size is_white_func) j.
Proof.
  intros Hsmall Hj Hcontent.
  apply (scan_result_covers min_size min_gap axis_size
           (map is_white_func (seq 0 axis_size)) Hsmall j Hj).
  rewrite nth_map_seq by exact Hj. exact Hcontent.
Qed.

Lemma find_regions_covers_content_witness :
  covered (find_regions 1 2 9 (fun i => nth i two_block_axis true)) 6.
Proof.
  apply find_regions_covers_content; [lia|lia|reflexivity].
Defined.

Lemma separated_count (min_size : Z) (n : nat) (l : list Interval) (lo : nat) :
  lo <= n + 1 ->
  separated l ->
  match l with [] => True | r :: _ => lo <= fst r end ->
  Forall (fun r : Interval =>
            fst r < snd r /\ snd r <= n /\
            (min_size <= Z.of_nat (snd r) - Z.of_nat (fst r))%Z) l ->
  (Z.of_nat (length l) * (Z.max 1 min_size + 1)
   <= Z.of_nat n + 1 - Z.of_nat lo)%Z.
Proof.
  revert lo. induction l as [|[s e] rest IH]; intros lo Hlo Hsep Hfirst Hall.
  - simpl. lia.
  - inversion Hall as [|? ? (Hse & Hen & Hsz) Hrest]; subst.
    cbn [fst snd] in *. cbn [length].
    assert (IH' : (Z.of_nat (length rest) * (Z.max 1 min_size + 1)
                   <= Z.of_nat n + 1 - Z.of_nat (e + 1))%Z).
    { apply IH; [lia| | |exact Hrest].
      - destruct rest as [|[s2 e2] rest']; [exact I|]. apply Hsep.
      - destruct rest as [|[s2 e2] rest']; [exact I|]. simpl.
        destruct Hsep as [Hlt _]. lia. }
    rewrite Nat2Z.inj_succ, Z.mul_succ_l. lia.
Qed.

(** X5: Intervals are at least [max(1, min_size)] long and at least one line
    apart, so there are at most [(axis_size + 1) / (max(1, min_size) + 1)]
    of them. *)
Theorem find_regions_count_bound
    (min_size min_gap : Z) (axis_size : nat) (is_white_func : nat -> bool) :
  (Z.of_nat (length (find_regions min_size min_gap axis_size is_white_func))
   * (Z.max 1 min_size + 1) <= Z.of_nat axis_size + 1)%Z.
Proof.
  destruct (find_regions_ok min_size min_gap axis_size is_white_func)
    as [Hok Hsep].
  pose proof (separated_count min_size axis_size
                (find_regions min_size min_gap axis_size is_white_func) 0
                ltac:(lia) Hsep) as H.
  rewrite Z.sub_0_r in H. apply H.
  - destruct (find_regions _ _ _ _); [exact I|lia].
  - eapply Forall_impl; [|exact Hok].
    intros r (H1 & H2 & _ & _ & H5). auto.
Qed.

(** ** Classifiers: monotonicity and extreme ratios *)

Lemma filter_length_mono {A : Type} (f g : A -> bool) (l : list A) :
  (forall x, f x = true -> g x = true) ->
  length (filter f l) <= length (filter g l).
Proof.
  intros Himp. induction l as [|x l IH]; [apply Nat.le_refl|].
  simpl. destruct (f x) eqn:Hf.
  - rewrite (Himp x Hf). simpl. lia.
  - destruct (g x); simpl; lia.
Qed.

Lemma bright_fraction_mono (f g : pixel -> bool) (pixels : line) :
  (forall p, f p = true -> g p = true) ->
  (bright_fraction f pixels <= bright_fraction g pixels)%Q.
Proof.
  intros Himp. unfold bright_fraction, Qdiv.
  apply Qmult_le_compat_r.
  - rewrite <- Zle_Qle. apply inj_le. apply filter_length_mono. exact Himp.
  - apply Qinv_le_0_compat. rewrite <- (Zle_Qle 0). lia.
Qed.

Lemma blank_line_mono (f g : pixel -> bool) (ratio ratio' : Q) (pixels : line) :
  (forall p, f p = true -> g p = true) ->
  (ratio' <= ratio)%Q ->
  blank_line f ratio pixels = true -> blank_line g ratio' pixels = true.
Proof.
  intros Himp Hr. unfold blank_line. destruct pixels as [|p pixels]; [auto|].
  rewrite !Qle_bool_iff. intros H.
  eapply Qle_trans; [exact Hr|]. eapply Qle_trans; [exact H|].
  apply bright_fraction_mono. exact Himp.
Qed.

Lemma mean_exceeds_mono (t t' : Z) (p : pixel) :
  (t' <= t)%Z -> mean_exceeds t p = true -> mean_exceeds t' p = true.
Proof.
  intros Ht. unfold mean_exceeds. destruct p as [|c p]; [auto|].
  rewrite !Z.ltb_lt. intros H.
  assert (t' * Z.of_nat (length (c :: p)) <= t * Z.of_nat (length (c :: p)))%Z
    by (apply Z.mul_le_mono_nonneg_r; lia).
  lia.
Qed.

Lemma all_exceed_mono (t t' : Z) (p : pixel) :
  (t' <= t)%Z -> all_exceed t p = true -> all_exceed t' p = true.
Proof.
  intros Ht. unfold all_exceed. rewrite !forallb_forall.
  intros H c Hc. specialize (H c Hc). apply Z.ltb_lt in H. apply Z.ltb_lt. lia.
Qed.

Lemma all_exceed_sum (t : Z) (p : pixel) :
  all_exceed t p = true ->
  ((t + 1) * Z.of_nat (length p) <= Zsum p)%Z.
Proof.
  induction p as [|c p IH]; intros H; [simpl; lia|].
  simpl in H. apply andb_true_iff in H. destruct H as [Hc Hp].
  apply Z.ltb_lt in Hc. specialize (IH Hp).
  cbn [length Zsum fold_right]. fold (Zsum p).
  rewrite Nat2Z.inj_succ, Z.mul_succ_r. lia.
Qed.

Lemma all_exceed_mean (t : Z) (p : pixel) :
  p <> [] -> all_exceed t p = true -> mean_exceeds t p = true.
Proof.
  intros Hp H. pose proof (all_exceed_sum t p H) as Hs.
  unfold mean_exceeds. destruct p as [|c p]; [contradiction|].
  apply Z.ltb_lt. set (n := Z.of_nat (length (c :: p))) in *.
  assert (0 < n)%Z by (subst n; simpl length; lia).
  rewrite Z.mul_add_distr_r in Hs. lia.
Qed.

(** X6: Lowering the threshold or the ratio never turns a blank line into
    content, for the trim classifier and for the segmentation
    classifiers. *)
Theorem classifiers_monotone (arr : ndarray) (threshold threshold' : Z)
    (ratio ratio' : Q) (pixels : line) (i : nat) :
  (threshold' <= threshold)%Z -> (ratio' <= ratio)%Q ->
  (is_edge_white threshold ratio pixels = true ->
   is_edge_white threshold' ratio' pixels = true) /\
  (is_white_row arr threshold ratio i = true ->
   is_white_row arr threshold' ratio' i = true) /\
  (is_white_column arr threshold ratio i = true ->
   is_white_column arr threshold' ratio' i = true).
Proof.
  intros Ht Hr. split; [|split].
  - rewrite !is_edge_white_blank. apply blank_line_mono; [|exact Hr].
    intros p. apply mean_exceeds_mono. exact Ht.
  - unfold is_white_row. rewrite !line_is_white_blank.
    apply blank_line_mono; [|exact Hr].
    intros p. apply all_exceed_mono. exact Ht.
  - unfold is_white_column. rewrite !line_is_white_blank.
    apply blank_line_mono; [|exact Hr].
    intros p. apply all_exceed_mono. exact Ht.
Qed.

Lemma classifiers_monotone_witness :
  is_edge_white 245 (75 # 100) speckled_line = true /\
  is_white_row [speckled_line] 245 (75 # 100) 0 = true.
Proof.
  pose proof (classifiers_monotone [speckled_line] 249 245 (75 # 100)
                (75 # 100) speckled_line 0 ltac:(lia)
                ltac:(apply Qle_refl)) as (H1 & H2 & _).
  split; [apply H1; reflexivity|apply H2; reflexivity].
Defined.

Lemma filter_length_within (threshold : Z) (pixels : line) :
  Forall (fun p : pixel => p <> []) pixels ->
  length (filter (all_exceed threshold) pixels)
  <= length (filter (mean_exceeds threshold) pixels).
Proof.
  induction 1 as [|p l Hp Hl IH]; [apply Nat.le_refl|].
  cbn [filter]. destruct (all_exceed threshold p) eqn:Ha.
  - rewrite (all_exceed_mean threshold p Hp Ha). cbn [length]. lia.
  - destruct (mean_exceeds threshold p); cbn [length]; lia.
Qed.

(** X7: On pixels that have channels, a line the segmentation classifier
    calls blank is blank for the trim classifier at the same threshold
    and ratio: all channels above the threshold puts the mean above it. *)
Theorem segmentation_blank_is_trim_blank (threshold : Z) (ratio : Q)
    (pixels : line) :
  Forall (fun p : pixel => p <> []) pixels ->
  line_is_white threshold ratio pixels = true ->
  is_edge_white threshold ratio pixels = true.
Proof.
  intros Hne. rewrite line_is_white_blank, is_edge_white_blank.
  unfold blank_line. destruct pixels as [|p0 pixels]; [auto|].
  rewrite !Qle_bool_iff. intros H. eapply Qle_trans; [exact H|].
  unfold bright_fraction, Qdiv. apply Qmult_le_compat_r.
  - rewrite <- Zle_Qle. apply inj_le. apply filter_length_within. exact Hne.
  - apply Qinv_le_0_compat. rewrite <- (Zle_Qle 0). lia.
Qed.

Lemma segmentation_blank_is_trim_blank_witness :
  is_edge_white 249 (75 # 100) speckled_line = true.
Proof.
  apply segmentation_blank_is_trim_blank; [|reflexivity].
  repeat constructor; discriminate.
Defined.

Lemma blank_line_above_one (f : pixel -> bool) (ratio : Q) (pixels : line) :
  (1 < ratio)%Q -> blank_line f ratio pixels = false.
Proof.
  intros Hr. unfold blank_line. destruct pixels as [|p pixels]; [reflexivity|].
  apply not_true_is_false. intros H. apply Qle_bool_iff in H.
  apply (Qlt_irrefl 1). eapply Qlt_le_trans; [exact Hr|].
  eapply Qle_trans; [exact H|]. apply bright_fraction_le_1. discriminate.
Qed.

(** X8: A ratio above 1 makes every line content; a ratio of 0 or less makes
    every line that has pixels blank; a line without pixels is never
    blank. *)
Theorem classifier_ratio_extremes (threshold : Z) (ratio : Q) (pixels : line) :
  ((1 < ratio)%Q ->
   is_edge_white threshold ratio pixels = false /\
   line_is_white threshold ratio pixels = false) /\
  ((ratio <= 0)%Q -> pixels <> [] ->
   is_edge_white threshold ratio pixels = true /\
   line_is_white threshold ratio pixels = true) /\
  is_edge_white threshold ratio [] = false /\
  line_is_white threshold ratio [] = false.
Proof.
  rewrite line_is_white_blank, is_edge_white_blank.
  split; [|split; [|split; reflexivity]].
  - intros Hr. split; apply blank_line_above_one; exact Hr.
  - intros Hr Hne. unfold blank_line. destruct pixels as [|p pixels];
      [contradiction|].
    split; apply Qle_bool_iff; (eapply Qle_trans; [exact Hr|]);
      apply bright_fraction_nonneg; discriminate.
Qed.

Lemma classifier_ratio_extremes_witness :
  is_edge_white 245 (3 # 2) speckled_line = false /\
  line_is_white 245 0 speckled_line = true.
Proof.
  pose proof (classifier_ratio_extremes 245 (3 # 2) speckled_line) as [H1 _].
  pose proof (classifier_ratio_extremes 245 0 speckled_line) as (_ & H2 & _).
  split.
  - apply H1. reflexivity.
  - apply H2; [apply Qle_refl|discriminate].
Defined.

(** X9: With [white_ratio > 1] no row and no column is a separator: both
    axes get the single interval over the whole axis (directly, or by the
    fallback when the axis is shorter than [min_size]) and the run cuts
    one slice. *)
Theorem ratio_above_one_whole_image (arr : ndarray) (cfg : config) :
  (1 < white_ratio cfg)%Q ->
  v_regions arr cfg = [(0, height arr)] /\
  h_regions arr cfg = [(0, width arr)] /\
  length (assemble arr cfg (v_regions arr cfg) (h_regions arr cfg)) = 1.
Proof.
  intros Hr.
  assert (Haxis : forall (n : nat) (f : nat -> bool),
             (forall i, f i = false) ->
             or_whole_axis (find_regions (min_size cfg) (min_gap cfg) n f) n
             = [(0, n)]).
  { intros n f Hf. destruct n as [|n]; [reflexivity|].
    rewrite content_axis_regions by (lia || auto).
    destruct (_ >=? _)%Z; reflexivity. }
  assert (Hv : v_regions arr cfg = [(0, height arr)]).
  { apply Haxis. intros i. unfold is_white_row.
    rewrite line_is_white_blank. apply blank_line_above_one. exact Hr. }
  assert (Hh : h_regions arr cfg = [(0, width arr)]).
  { apply Haxis. intros i. unfold is_white_column.
    rewrite line_is_white_blank. apply blank_line_above_one. exact Hr. }
  split; [exact Hv|]. split; [exact Hh|].
  rewrite length_assemble, Hv, Hh. reflexivity.
Qed.

Lemma ratio_above_one_whole_image_witness :
  v_regions cross_image (mk_config 245 1 1 (3 # 2) false 10 248 "tblr"
                           "{name}_{N}" None) = [(0, 3)].
Proof.
  apply (ratio_above_one_whole_image cross_image). reflexivity.
Defined.

(** ** The trimmer: what is trimmed, and when nothing is *)

Lemma edge_loop_spec (white_at : nat -> bool) (remaining i : nat) :
  let c := edge_loop white_at remaining i i in
  i <= c <= i + remaining /\
  (forall k, i <= k < c -> white_at k = true) /\
  (c < i + remaining -> white_at c = false).
Proof.
  revert i. induction remaining as [|r IH]; intros i; simpl.
  - repeat split; lia.
  - destruct (white_at i) eqn:Hw.
    + destruct (IH (S i)) as (H1 & H2 & H3). repeat split; try lia.
      * intros k Hk. destruct (Nat.eq_dec k i) as [->|Hne]; [exact Hw|].
        apply H2. lia.
      * intros Hc. apply H3. lia.
    + repeat split; try lia. intros _. exact Hw.
Qed.

Lemma edge_count_spec (enabled : bool) (white_at : nat -> bool) (bound : nat) :
  let c := if enabled then edge_loop white_at bound 0 0 else 0 in
  (forall k, k < c -> white_at k = true) /\
  (enabled = true -> c < bound -> white_at c = false).
Proof.
  destruct enabled; simpl.
  - destruct (edge_loop_spec white_at bound 0) as (_ & H2 & H3).
    split; [intros k Hk; apply H2; lia|intros _; exact H3].
  - split; [intros k Hk; lia|discriminate].
Qed.

(** X10: Every line that [trim_white_border] counts on a side is blank, and
    on an enabled side the count stops at the first line that is not,
    unless the cap [min(max_trim, dim // 4)] is reached first. *)
Theorem trim_counts_leading_blank_lines (img_array : ndarray)
    (brightness_threshold : Z) (white_ratio : Q) (max_trim : Z)
    (sides : string) :
  let '(top, bottom, lft, rgt) :=
    trim_white_border img_array brightness_threshold white_ratio max_trim sides in
  let blank := is_edge_white brightness_threshold white_ratio in
  let h := height img_array in
  let w := width img_array in
  let on c := char_in c (str_lower sides) = true in
  (forall i, i < top -> blank (row_pixels img_array i) = true) /\
  (forall i, i < bottom -> blank (row_pixels img_array (h - 1 - i)) = true) /\
  (forall i, i < lft -> blank (column_pixels img_array i) = true) /\
  (forall i, i < rgt -> blank (column_pixels img_array (w - 1 - i)) = true) /\
  (on "t"%char -> top < trim_bound max_trim h ->
   blank (row_pixels img_array top) = false) /\
  (on "b"%char -> bottom < trim_bound max_trim h ->
   blank (row_pixels img_array (h - 1 - bottom)) = false) /\
  (on "l"%char -> lft < trim_bound max_trim w ->
   blank (column_pixels img_array lft) = false) /\
  (on "r"%char -> rgt < trim_bound max_trim w ->
   blank (column_pixels img_array (w - 1 - rgt)) = false).
Proof.
  unfold trim_white_border. cbv zeta.
  set (blank := is_edge_white brightness_threshold white_ratio).
  pose proof (edge_count_spec (char_in "t" (str_lower sides))
                (fun i => blank (row_pixels img_array i))
                (trim_bound max_trim (height img_array))) as [Ht1 Ht2].
  pose proof (edge_count_spec (char_in "b" (str_lower sides))
                (fun i => blank (row_pixels img_array (height img_array - 1 - i)))
                (trim_bound max_trim (height img_array))) as [Hb1 Hb2].
  pose proof (edge_count_spec (char_in "l" (str_lower sides))
                (fun i => blank (column_pixels img_array i))
                (trim_bound max_trim (width img_array))) as [Hl1 Hl2].
  pose proof (edge_count_spec (char_in "r" (str_lower sides))
                (fun i => blank (column_pixels img_array (width img_array - 1 - i)))
                (trim_bound max_trim (width img_array))) as [Hr1 Hr2].
  repeat split; assumption.
Qed.

Lemma trim_bound_zero (max_trim : Z) (dim : nat) :
  (max_trim <= 0)%Z \/ dim < 4 -> trim_bound max_trim dim = 0.
Proof.
  intros H. unfold trim_bound.
  assert (Z.min max_trim (Z.of_nat dim / 4) <= 0)%Z; [|lia].
  destruct H as [H|H]; [lia|].
  rewrite Z.div_small by lia. lia.
Qed.

(** X11: Nothing is trimmed with [max_trim <= 0]; a sub-image less than 4
    pixels high is not trimmed at the top or bottom, one less than 4
    pixels wide not at the left or right; and a side whose letter is not
    in [sides] is not trimmed. *)
Theorem trim_nothing_cases (img_array : ndarray) (brightness_threshold : Z)
    (white_ratio : Q) (max_trim : Z) (sides : string) :
  let '(top, bottom, lft, rgt) :=
    trim_white_border img_array brightness_threshold white_ratio max_trim sides in
  let off c := char_in c (str_lower sides) = false in
  ((max_trim <= 0)%Z -> (top, bottom, lft, rgt) = (0, 0, 0, 0)) /\
  (height img_array < 4 -> top = 0 /\ bottom = 0) /\
  (width img_array < 4 -> lft = 0 /\ rgt = 0) /\
  (off "t"%char -> top = 0) /\ (off "b"%char -> bottom = 0) /\
  (off "l"%char -> lft = 0) /\ (off "r"%char -> rgt = 0).
Proof.
  unfold trim_white_border. cbv zeta.
  split; [|split; [|split; [|split; [|split; [|split]]]]].
  - intros H. rewrite !(trim_bound_zero max_trim) by (left; exact H).
    repeat (destruct (char_in _ _)); reflexivity.
  - intros H. rewrite (trim_bound_zero max_trim) by (right; exact H).
    split; destruct (char_in _ _); reflexivity.
  - intros H. rewrite (trim_bound_zero max_trim) by (right; exact H).
    split; destruct (char_in _ _); reflexivity.
  - intros H. rewrite H. reflexivity.
  - intros H. rewrite H. reflexivity.
  - intros H. rewrite H. reflexivity.
  - intros H. rewrite H. reflexivity.
Qed.

Lemma trim_nothing_cases_witness :
  trim_white_border capped_image 250 (85 # 100) 0 "tblr" = (0, 0, 0, 0) /\
  fst (fst (fst (trim_white_border capped_image 250 (85 # 100) 10 "blr"))) = 0.
Proof.
  pose proof (trim_nothing_cases capped_image 250 (85 # 100) 0 "tblr") as H0.
  pose proof (trim_nothing_cases capped_image 250 (85 # 100) 10 "blr") as H1.
  destruct (trim_white_border capped_image 250 (85 # 100) 0 "tblr")
    as [[[t0 b0] l0] r0].
  destruct (trim_white_border capped_image 250 (85 # 100) 10 "blr")
    as [[[t1 b1] l1] r1].
  destruct H0 as (H0 & _). destruct H1 as (_ & _ & _ & H1 & _).
  split; [apply H0; lia|apply H1; reflexivity].
Defined.

Lemma trim_counts_leading_blank_lines_witness :
  is_edge_white 250 (85 # 100) (row_pixels capped_image 0) = true /\
  is_edge_white 250 (85 # 100) (row_pixels capped_image 3) = false.
Proof.
  pose proof (trim_counts_leading_blank_lines capped_image 250 (85 # 100) 10
                "tblr") as H.
  change (trim_white_border capped_image 250 (85 # 100) 10 "tblr")
    with (1, 0, 0, 0) in H.
  cbv zeta beta iota in H. destruct H as (Ht & _ & _ & _ & _ & Hb & _).
  split; [apply Ht; lia|].
  apply Hb; [reflexivity|vm_compute; lia].
Defined.

(** ** Names of a run *)

Lemma assemble_indices (arr : ndarray) (cfg : config)
    (rows cols : list Interval) :
  map (fun s => (row s, col s)) (assemble arr cfg rows cols)
  = list_prod (seq 0 (length rows)) (seq 0 (length cols)).
Proof.
  rewrite assemble_list_prod, map_map.
  rewrite (map_ext _ (fun c => (fst (fst c), fst (snd c)))).
  - rewrite (map_list_prod fst fst). unfold enumerate.
    rewrite !map_fst_combine_seq. reflexivity.
  - intros [[vi v] [hi h]]. simpl.
    destruct (crop_cell_index arr cfg vi v hi h) as [-> ->]. reflexivity.
Qed.

Lemma list_prod_snoc {A B : Type} (l : list A) (a : A) (l' : list B) :
  list_prod (l ++ [a]) l' = list_prod l l' ++ map (pair a) l'.
Proof.
  induction l as [|x l IH]; simpl.
  - rewrite app_nil_r. reflexivity.
  - rewrite IH, app_assoc. reflexivity.
Qed.

Lemma map_add_seq (a from len : nat) :
  map (fun k => a + k) (seq from len) = seq (a + from) len.
Proof.
  revert from. induction len as [|len IH]; intros from; [reflexivity|].
  simpl. rewrite IH. f_equal. f_equal. lia.
Qed.

Lemma row_major_enumeration (nv nh : nat) :
  map (fun rc => fst rc * nh + snd rc) (list_prod (seq 0 nv) (seq 0 nh))
  = seq 0 (nv * nh).
Proof.
  induction nv as [|nv IH]; [reflexivity|].
  rewrite seq_S, list_prod_snoc, map_app, IH, map_map. cbn [fst snd plus].
  replace (S nv * nh) with (nv * nh + nh) by lia.
  rewrite seq_app. f_equal.
  rewrite (map_add_seq (nv * nh) 0 nh), Nat.add_0_r. reflexivity.
Qed.

(** The sequence number [n = row * total_cols + col] counts the slices
    in the order they are cut: 0, 1, 2, ... *)
Lemma assemble_linear_index (arr : ndarray) (cfg : config)
    (rows cols : list Interval) :
  map (linear_index (length cols)) (assemble arr cfg rows cols)
  = seq 0 (length rows * length cols).
Proof.
  rewrite <- row_major_enumeration, <- (assemble_indices arr cfg), map_map.
  reflexivity.
Qed.

Lemma save_all_names (name_of : Slice -> outcome string)
    (g : Slice -> string) (slices : list Slice) (count : nat) :
  (forall s, In s slices -> name_of s = Ok (g s)) ->
  save_all name_of slices count
  = (map (fun s => (g s, s)) slices, Ok (count + length slices)).
Proof.
  revert count. induction slices as [|s rest IH]; intros count Hname.
  - simpl. rewrite Nat.add_0_r. reflexivity.
  - simpl. rewrite (Hname s (or_introl eq_refl)).
    rewrite IH by (intros s' Hs'; apply Hname; right; exact Hs').
    simpl. do 2 f_equal. lia.
Qed.

Lemma slice_name_suffix (base_name : string) (cfg : config) (total_cols : nat)
    (s0 : string) (l : list string) (s : Slice) :
  suffix_list cfg = Some (s0 :: l) ->
  slice_name base_name cfg total_cols s
  = Ok (cyclic_name base_name (s0 :: l) (linear_index total_cols s)).
Proof.
  intros Hsuffix. unfold slice_name, generate_output_filename.
  rewrite Hsuffix. unfold cyclic_name, linear_index. do 3 f_equal.
  rewrite <- Nat2Z.inj_mul, <- Nat2Z.inj_add.
  rewrite <- Nat2Z.inj_mod, Nat2Z.id. reflexivity.
Qed.

Lemma suffix_run (arr : ndarray) (base_name : string) (cfg : config)
    (s0 : string) (l : list string) :
  suffix_list cfg = Some (s0 :: l) ->
  map fst (fst (split_composite_image arr base_name cfg))
  = map (cyclic_name base_name (s0 :: l))
        (seq 0 (length (v_regions arr cfg) * length (h_regions arr cfg))).
Proof.
  intros Hsuffix. unfold split_composite_image.
  rewrite (save_all_names _
             (fun s => cyclic_name base_name (s0 :: l)
                         (linear_index (length (h_regions arr cfg)) s)))
    by (intros s _; apply slice_name_suffix; exact Hsuffix).
  cbn [fst]. rewrite map_map. cbn [fst].
  rewrite <- assemble_linear_index with (arr := arr) (cfg := cfg), map_map.
  reflexivity.
Qed.

(** X12: With a suffix list, the slices are named in the order they are cut
    by going round the list: the [k]-th name (from 0) is the base name
    followed by the suffix at index [k mod m]. *)
Theorem suffix_names_cycle_in_order (arr : ndarray) (base_name : string)
    (cfg : config) (s0 : string) (l : list string) :
  suffix_list cfg = Some (s0 :: l) ->
  let total := length (v_regions arr cfg) * length (h_regions arr cfg) in
  map fst (fst (split_composite_image arr base_name cfg))
  = map (cyclic_name base_name (s0 :: l)) (seq 0 total) /\
  snd (split_composite_image arr base_name cfg) = Ok total.
Proof.
  intros Hsuffix total. split; [apply suffix_run; exact Hsuffix|].
  unfold split_composite_image.
  rewrite (save_all_names _
             (fun s => cyclic_name base_name (s0 :: l)
                         (linear_index (length (h_regions arr cfg)) s)))
    by (intros s _; apply slice_name_suffix; exact Hsuffix).
  cbn [snd]. rewrite length_assemble. reflexivity.
Qed.

Lemma suffix_names_cycle_in_order_witness :
  map fst (fst (split_composite_image cross_image "base" two_suffix_config))
  = ["base_a"; "base_b"; "base_a"; "base_b"]%string.
Proof.
  apply (suffix_names_cycle_in_order cross_image "base" two_suffix_config
           "_a" ["_b"%string] eq_refl).
Defined.



(** *** Distinct names *)

Lemma append_inv_l (s x y : string) : append s x = append s y -> x = y.
Proof.
  induction s as [|c s IH]; simpl; intros H; [exact H|].
  inversion H. auto.
Qed.

Lemma underscore_split (x x' y y' : string) :
  char_in "_" x = false -> char_in "_" x' = false ->
  append x (String "_" y) = append x' (String "_" y') ->
  x = x' /\ y = y'.
Proof.
  revert x'. induction x as [|c x IH]; intros x' Hx Hx' Heq.
  - destruct x' as [|c' x']; simpl in Heq.
    + inversion Heq. auto.
    + inversion Heq; subst c'. simpl in Hx'. discriminate.
  - destruct x' as [|c' x']; simpl in Heq.
    + inversion Heq; subst c. simpl in Hx. discriminate.
    + inversion Heq; subst c'. simpl in Hx, Hx'.
      apply orb_false_iff in Hx, Hx'. destruct Hx as [_ Hx], Hx' as [_ Hx'].
      destruct (IH x' Hx Hx' H1) as [-> ->]. auto.
Qed.

Lemma uint_no_underscore (u : Decimal.uint) :
  char_in "_" (NilEmpty.string_of_uint u) = false.
Proof. induction u; simpl; auto. Qed.

Lemma py_str_int_no_underscore (z : Z) :
  char_in "_" (py_str (PyInt z)) = false.
Proof.
  unfold py_str, NilEmpty.string_of_int.
  destruct (Z.to_int z); simpl; apply uint_no_underscore.
Qed.

Lemma py_str_int_inj (z z' : Z) :
  py_str (PyInt z) = py_str (PyInt z') -> z = z'.
Proof.
  unfold py_str. intros H.
  assert (Hd : Some (Z.to_int z) = Some (Z.to_int z')).
  { rewrite <- !NilEmpty.isi. rewrite H. reflexivity. }
  inversion Hd as [Hd'].
  rewrite <- (DecimalZ.of_to z), <- (DecimalZ.of_to z'), Hd'. reflexivity.
Qed.

Lemma default_name_inj (base_name : string) (tc tc' r c r' c' : Z) :
  render base_name r c tc default_segments
  = render base_name r' c' tc' default_segments ->
  r = r' /\ c = c'.
Proof.
  unfold default_segments. cbn [render placeholder_value]. intros H.
  apply append_inv_l in H. inversion H as [H1].
  apply underscore_split in H1; try apply py_str_int_no_underscore.
  destruct H1 as [Hr Hc]. rewrite !append_nil_r in Hc.
  split; apply py_str_int_inj; assumption.
Qed.

Lemma NoDup_list_prod {A B : Type} (l : list A) (l' : list B) :
  NoDup l -> NoDup l' -> NoDup (list_prod l l').
Proof.
  intros Hl Hl'. induction Hl as [|a l Ha Hl IH]; [constructor|].
  simpl. apply NoDup_app.
  - apply NoDup_map_NoDup_ForallPairs; [|exact Hl'].
    intros x y _ _ Heq. inversion Heq. reflexivity.
  - exact IH.
  - intros [x y] Hin Hin'. apply in_map_iff in Hin.
    destruct Hin as (y0 & Heq & _). inversion Heq; subst.
    apply in_prod_iff in Hin'. destruct Hin' as [Hin' _]. contradiction.
Qed.

Lemma assemble_indices_NoDup (arr : ndarray) (cfg : config)
    (rows cols : list Interval) :
  NoDup (map (fun s => (row s, col s)) (assemble arr cfg rows cols)).
Proof.
  rewrite assemble_indices. apply NoDup_list_prod; apply seq_NoDup.
Qed.

Lemma slice_name_default (base_name : string) (cfg : config)
    (total_cols : nat) (s : Slice) :
  slice_name base_name (with_template cfg "{name}_{row}_{col}") total_cols s
  = Ok (render base_name (Z.of_nat (row s)) (Z.of_nat (col s))
               (Z.of_nat total_cols) default_segments).
Proof.
  unfold slice_name.
  change (suffix_template (with_template cfg "{name}_{row}_{col}"))
    with (template_of default_segments).
  change (suffix_list (with_template cfg "{name}_{row}_{col}"))
    with (@None (list string)).
  rewrite generate_from_template.
  rewrite <- (append_nil_r (template_of _)), vformat_segments by reflexivity.
  cbn [vformat omap bind]. rewrite append_nil_r. reflexivity.
Qed.

(** X15: With the default template [{name}_{row}_{col}] no two slices of a
    run get the same name, so no output file overwrites another. *)
Theorem default_template_names_distinct (arr : ndarray) (base_name : string)
    (cfg : config) :
  NoDup (map fst (fst (split_composite_image arr base_name
                         (with_template cfg "{name}_{row}_{col}")))).
Proof.
  unfold split_composite_image.
  rewrite (save_all_names _
             (fun s => render base_name (Z.of_nat (row s)) (Z.of_nat (col s))
                         (Z.of_nat (length (h_regions arr
                            (with_template cfg "{name}_{row}_{col}"))))
                         default_segments))
    by (intros s _; apply slice_name_default).
  cbn [fst]. rewrite map_map. cbn [fst].
  set (cfg' := with_template cfg "{name}_{row}_{col}").
  set (slices := assemble arr cfg' (v_regions arr cfg') (h_regions arr cfg')).
  pose proof (assemble_indices_NoDup arr cfg' (v_regions arr cfg')
                (h_regions arr cfg')) as Hidx.
  fold slices in Hidx.
  apply NoDup_map_NoDup_ForallPairs.
  - intros s s' Hs Hs' Heq. apply default_name_inj in Heq.
    destruct Heq as [Hr Hc]. apply Nat2Z.inj in Hr, Hc.
    clear -Hidx Hs Hs' Hr Hc. induction slices as [|a rest IH];
      [contradiction|].
    simpl in Hidx. inversion Hidx as [|? ? Hnotin Hrest]; subst.
    destruct Hs as [<-|Hs], Hs' as [<-|Hs'].
    + reflexivity.
    + exfalso. apply Hnotin. apply in_map_iff. exists s'.
      rewrite Hr, Hc. auto.
    + exfalso. apply Hnotin. apply in_map_iff. exists s.
      rewrite Hr, Hc. auto.
    + apply IH; assumption.
  - apply (NoDup_map_inv (fun s => (row s, col s))). exact Hidx.
Qed.

(** X14: A suffix list of pairwise distinct suffixes that is at least as long
    as the number of slices names every slice differently. *)
Theorem long_suffix_list_names_distinct (arr : ndarray) (base_name : string)
    (cfg : config) (s0 : string) (l : list string) :
  suffix_list cfg = Some (s0 :: l) ->
  NoDup (s0 :: l) ->
  length (v_regions arr cfg) * length (h_regions arr cfg) <= length (s0 :: l) ->
  NoDup (map fst (fst (split_composite_image arr base_name cfg))).
Proof.
  intros Hsuffix Hdistinct Hlong.
  rewrite (suffix_run arr base_name cfg s0 l Hsuffix).
  apply NoDup_map_NoDup_ForallPairs; [|apply seq_NoDup].
  intros k k' Hk Hk' Heq. apply in_seq in Hk, Hk'.
  unfold cyclic_name in Heq. apply append_inv_l in Heq.
  rewrite !Nat.mod_small in Heq by lia.
  apply (proj1 (NoDup_nth (s0 :: l) EmptyString) Hdistinct); [lia|lia|exact Heq].
Qed.

Lemma long_suffix_list_names_distinct_witness :
  NoDup (map fst (fst (split_composite_image cross_image "base"
                         four_suffix_config))) /\
  map fst (fst (split_composite_image cross_image "base" four_suffix_config))
  = ["base_a"; "base_b"; "base_c"; "base_d"]%string.
Proof.
  split; [|reflexivity].
  apply (long_suffix_list_names_distinct cross_image "base" four_suffix_config
           "_a" ["_b"; "_c"; "_d"]%string eq_refl).
  - repeat constructor; simpl; intuition discriminate.
  - vm_compute. lia.
Defined.

(** ** Crop boxes of a run *)

Lemma in_enumerate {A : Type} (l : list A) (i : nat) (x : A) :
  In (i, x) (enumerate l) -> In x l.
Proof. unfold enumerate. apply in_combine_r. Qed.

Lemma axis_regions_within (min_size min_gap : Z) (axis_size : nat)
    (is_white_func : nat -> bool) (r : Interval) :
  0 < axis_size ->
  In r (or_whole_axis
          (find_regions min_size min_gap axis_size is_white_func) axis_size) ->
  fst r < snd r /\ snd r <= axis_size.
Proof.
  intros Hpos Hin.
  destruct (find_regions_ok min_size min_gap axis_size is_white_func) as [Hok _].
  destruct (find_regions min_size min_gap axis_size is_white_func) as [|r0 rest].
  - simpl in Hin. destruct Hin as [<-|[]]. simpl. lia.
  - cbn [or_whole_axis] in Hin. rewrite Forall_forall in Hok.
    destruct (Hok r Hin) as (H1 & H2 & _). auto.
Qed.

(** X16: On a rectangular image of at least one row and one column, with
    [trim_max >= 0], every crop box of a run is non-empty and lies inside
    the image, trimming enabled or not. *)
Theorem crop_boxes_inside_image (arr : ndarray) (cfg : config) :
  rectangular arr -> 0 < height arr -> 0 < width arr ->
  (0 <= trim_max cfg)%Z ->
  Forall (fun s : Slice =>
            let '(x1, y1, x2, y2) := rect s in
            (0 <= x1 < x2)%Z /\ (x2 <= Z.of_nat (width arr))%Z /\
            (0 <= y1 < y2)%Z /\ (y2 <= Z.of_nat (height arr))%Z)
         (assemble arr cfg (v_regions arr cfg) (h_regions arr cfg)).
Proof.
  intros Hrect Hh Hw Hmax. rewrite assemble_list_prod.
  apply Forall_map. apply Forall_forall.
  intros [[vi [y1 y2]] [hi [x1 x2]]] Hin. cbn [fst snd].
  apply in_prod_iff in Hin. destruct Hin as [Hv Hc].
  apply in_enumerate in Hv, Hc.
  apply axis_regions_within in Hv; [|exact Hh].
  apply axis_regions_within in Hc; [|exact Hw].
  cbn [fst snd] in Hv, Hc.
  pose proof (crop_cell_rect_nonempty arr cfg vi hi y1 y2 x1 x2 Hrect
                ltac:(lia) ltac:(lia) ltac:(lia) ltac:(lia) Hmax) as Hbox.
  destruct (rect (crop_cell arr cfg vi (y1, y2) hi (x1, x2)))
    as [[[cx1 cy1] cx2] cy2].
  lia.
Qed.

Lemma crop_boxes_inside_image_witness :
  Forall (fun s : Slice =>
            let '(x1, y1, x2, y2) := rect s in
            (0 <= x1 < x2)%Z /\ (x2 <= 3)%Z /\ (0 <= y1 < y2)%Z /\ (y2 <= 3)%Z)
         (assemble cross_image cross_config
            (v_regions cross_image cross_config)
            (h_regions cross_image cross_config)).
Proof.
  apply (crop_boxes_inside_image cross_image cross_config).
  - repeat constructor.
  - vm_compute. lia.
  - vm_compute. lia.
  - vm_compute. discriminate.
Defined.

Lemma separated_head_before (a : Interval) (rest : list Interval) :
  separated (a :: rest) ->
  Forall (fun r => fst r < snd r) rest ->
  forall r, In r rest -> snd a < fst r.
Proof.
  revert a. induction rest as [|[s2 e2] rest IH]; intros [s1 e1] Hsep Hne r Hin;
    [contradiction|].
  simpl in Hsep. destruct Hsep as [Hlt Hsep].
  inversion Hne as [|? ? Hb Hrest]; subst. simpl in Hb.
  destruct Hin as [<-|Hin]; [simpl; lia|].
  specialize (IH (s2, e2) Hsep Hrest r Hin). simpl in *. lia.
Qed.

Lemma separated_tail (a : Interval) (rest : list Interval) :
  separated (a :: rest) -> separated rest.
Proof.
  destruct a as [s1 e1]. destruct rest as [|[s2 e2] rest]; [auto|].
  simpl. intros [_ H]. exact H.
Qed.

Lemma in_combine_seq {A : Type} (l : list A) (from i : nat) (x : A) :
  In (i, x) (combine (seq from (length l)) l) ->
  from <= i /\ nth_error l (i - from) = Some x.
Proof.
  revert from. induction l as [|a l IH]; intros from Hin; [contradiction|].
  simpl in Hin. destruct Hin as [Heq|Hin].
  - inversion Heq; subst. rewrite Nat.sub_diag. auto.
  - destruct (IH (S from) Hin) as [Hle Hnth]. split; [lia|].
    replace (i - from) with (S (i - S from)) by lia. exact Hnth.
Qed.

Lemma separated_in_order (l : list Interval) (i j : nat) (r r' : Interval) :
  separated l -> Forall (fun r => fst r < snd r) l ->
  nth_error l i = Some r -> nth_error l j = Some r' -> i < j ->
  snd r < fst r'.
Proof.
  revert i j. induction l as [|a l IH]; intros i j Hsep Hne Hi Hj Hij.
  - destruct i; discriminate.
  - inversion Hne as [|? ? Ha Hl]; subst.
    destruct j as [|j]; [lia|]. destruct i as [|i]; simpl in Hi, Hj.
    + inversion Hi; subst. apply (separated_head_before r l Hsep Hl).
      apply nth_error_In in Hj. exact Hj.
    + apply (IH i j); auto; [apply (separated_tail a); exact Hsep|lia].
Qed.

Lemma axis_regions_in_order (min_size min_gap : Z) (axis_size : nat)
    (is_white_func : nat -> bool) (i j : nat) (r r' : Interval) :
  0 < axis_size ->
  let regions :=
    or_whole_axis (find_regions min_size min_gap axis_size is_white_func)
                  axis_size in
  In (i, r) (enumerate regions) -> In (j, r') (enumerate regions) -> i < j ->
  snd r < fst r'.
Proof.
  intros Hpos regions Hi Hj Hij.
  apply in_combine_seq in Hi, Hj. rewrite Nat.sub_0_r in Hi, Hj.
  destruct Hi as [_ Hi], Hj as [_ Hj].
  apply (separated_in_order regions i j); auto.
  - subst regions.
    destruct (find_regions_ok min_size min_gap axis_size is_white_func)
      as [_ Hsep].
    destruct (find_regions _ _ _ _); [exact I|exact Hsep].
  - apply Forall_forall. intros x Hx.
    apply (axis_regions_within min_size min_gap axis_size is_white_func x Hpos Hx).
Qed.

(** X17: Slices of different rows of the grid have crop boxes one above the
    other, slices of different columns have crop boxes side by side: no
    pixel of the image goes into two slices. *)
Theorem crop_boxes_disjoint (arr : ndarray) (cfg : config) (s s' : Slice) :
  rectangular arr -> 0 < height arr -> 0 < width arr ->
  (0 <= trim_max cfg)%Z ->
  In s (assemble arr cfg (v_regions arr cfg) (h_regions arr cfg)) ->
  In s' (assemble arr cfg (v_regions arr cfg) (h_regions arr cfg)) ->
  let '(x1, y1, x2, y2) := rect s in
  let '(x1', y1', x2', y2') := rect s' in
  (row s < row s' -> (y2 < y1')%Z) /\
  (col s < col s' -> (x2 < x1')%Z).
Proof.
  intros Hrect Hh Hw Hmax Hs Hs'.
  rewrite assemble_list_prod in Hs, Hs'.
  apply in_map_iff in Hs, Hs'.
  destruct Hs as ([[vi [y1 y2]] [hi [x1 x2]]] & <- & Hin).
  destruct Hs' as ([[vi' [y1' y2']] [hi' [x1' x2']]] & <- & Hin').
  cbn [fst snd]. apply in_prod_iff in Hin, Hin'.
  destruct Hin as [Hv Hc], Hin' as [Hv' Hc'].
  destruct (crop_cell_index arr cfg vi (y1, y2) hi (x1, x2)) as [-> ->].
  destruct (crop_cell_index arr cfg vi' (y1', y2') hi' (x1', x2')) as [-> ->].
  pose proof (in_enumerate _ _ _ Hv) as Hv1.
  pose proof (in_enumerate _ _ _ Hc) as Hc1.
  pose proof (in_enumerate _ _ _ Hv') as Hv1'.
  pose proof (in_enumerate _ _ _ Hc') as Hc1'.
  apply axis_regions_within in Hv1, Hv1'; try exact Hh.
  apply axis_regions_within in Hc1, Hc1'; try exact Hw.
  cbn [fst snd] in *.
  pose proof (crop_cell_rect_nonempty arr cfg vi hi y1 y2 x1 x2 Hrect
                ltac:(lia) ltac:(lia) ltac:(lia) ltac:(lia) Hmax) as Hbox.
  pose proof (crop_cell_rect_nonempty arr cfg vi' hi' y1' y2' x1' x2' Hrect
                ltac:(lia) ltac:(lia) ltac:(lia) ltac:(lia) Hmax) as Hbox'.
  destruct (rect (crop_cell arr cfg vi (y1, y2) hi (x1, x2)))
    as [[[cx1 cy1] cx2] cy2].
  destruct (rect (crop_cell arr cfg vi' (y1', y2') hi' (x1', x2')))
    as [[[cx1' cy1'] cx2'] cy2'].
  split; intros Hlt.
  - pose proof (axis_regions_in_order _ _ _ _ vi vi' (y1, y2) (y1', y2')
                  Hh Hv Hv' Hlt) as Hord. cbn [fst snd] in Hord. lia.
  - pose proof (axis_regions_in_order _ _ _ _ hi hi' (x1, x2) (x1', x2')
                  Hw Hc Hc' Hlt) as Hord. cbn [fst snd] in Hord. lia.
Qed.

Lemma crop_boxes_disjoint_witness : (1 < 2)%Z /\ (1 < 2)%Z.
Proof.
  pose proof (crop_boxes_disjoint cross_image cross_config
                (mk_slice 0 0 (0, 0, 1, 1)%Z (0, 0, 0, 0))
                (mk_slice 1 1 (2, 2, 3, 3)%Z (0, 0, 0, 0))
                ltac:(repeat constructor) ltac:(vm_compute; lia)
                ltac:(vm_compute; lia) ltac:(vm_compute; discriminate)
                ltac:(vm_compute; auto) ltac:(vm_compute; auto 10)) as H.
  cbn in H. destruct H as [H1 H2]. split; [apply H1|apply H2]; lia.
Defined.

(** ** parse_suffix_list *)

Lemma split_at_nonnil (sep : ascii -> bool) (s : string) :
  split_at sep s <> [].
Proof.
  induction s as [|c s IH]; simpl; [discriminate|].
  destruct (sep c); [discriminate|].
  destruct (split_at sep s); discriminate.
Qed.

Lemma length_split_at (sep : ascii -> bool) (s : string) :
  length (split_at sep s) = 1 + count_char sep s.
Proof.
  induction s as [|c s IH]; [reflexivity|].
  simpl. destruct (sep c).
  - simpl. rewrite IH. reflexivity.
  - pose proof (split_at_nonnil sep s) as Hne.
    destruct (split_at sep s) as [|w ws]; [contradiction|].
    simpl in *. exact IH.
Qed.

Lemma split_at_free (sep : ascii -> bool) (s : string) :
  Forall (fun w => free_of sep w = true) (split_at sep s).
Proof.
  induction s as [|c s IH]; simpl; [repeat constructor|].
  destruct (sep c) eqn:Hc.
  - constructor; [reflexivity|exact IH].
  - destruct (split_at sep s) as [|w ws]; [repeat constructor; simpl; rewrite Hc; reflexivity|].
    inversion IH as [|? ? Hw Hws]; subst.
    constructor; [simpl; rewrite Hc, Hw; reflexivity|exact Hws].
Qed.

Lemma concat_split_at (sep : ascii -> bool) (s : string) :
  concat_strings (split_at sep s) = without sep s.
Proof.
  induction s as [|c s IH]; [reflexivity|].
  simpl. destruct (sep c); [exact IH|].
  pose proof (split_at_nonnil sep s) as Hne.
  destruct (split_at sep s) as [|w ws]; [contradiction|].
  simpl in *. rewrite IH. reflexivity.
Qed.

Lemma concat_filter_nonempty (l : list string) :
  concat_strings (filter nonempty l) = concat_strings l.
Proof.
  induction l as [|w l IH]; [reflexivity|].
  simpl. destruct w; simpl; rewrite IH; reflexivity.
Qed.

Lemma char_in_count (c : ascii) (s : string) :
  char_in c s = true <-> 0 < count_char (Ascii.eqb c) s.
Proof.
  induction s as [|d s IH]; simpl; [split; [discriminate|lia]|].
  destruct (Ascii.eqb c d); simpl; [split; [lia|reflexivity]|exact IH].
Qed.

Lemma count_char_ext (f g : ascii -> bool) (s : string) :
  (forall c, f c = g c) -> count_char f s = count_char g s.
Proof.
  intros H. induction s as [|c s IH]; [reflexivity|].
  simpl. rewrite H, IH. reflexivity.
Qed.

Lemma free_of_lstrip (f : ascii -> bool) (s : string) :
  free_of f s = true -> free_of f (lstrip s) = true.
Proof.
  induction s as [|c s IH]; [auto|]. intros H. simpl.
  destruct (is_space c); [|exact H].
  simpl in H. apply andb_true_iff in H. apply IH. apply H.
Qed.

Lemma free_of_rstrip (f : ascii -> bool) (s : string) :
  free_of f s = true -> free_of f (rstrip s) = true.
Proof.
  induction s as [|c s IH]; [auto|]. intros H.
  simpl in H. apply andb_true_iff in H. destruct H as [Hc Hs].
  specialize (IH Hs). simpl. destruct (rstrip s) as [|d r].
  - destruct (is_space c); [reflexivity|]. simpl. rewrite Hc. reflexivity.
  - cbn [free_of]. rewrite Hc. exact IH.
Qed.

Lemma rstrip_idem (s : string) : rstrip (rstrip s) = rstrip s.
Proof.
  induction s as [|c s IH]; [reflexivity|].
  simpl. destruct (rstrip s) as [|d r] eqn:Hr.
  - destruct (is_space c) eqn:Hc; [reflexivity|]. simpl. rewrite Hc. reflexivity.
  - cbn [rstrip]. cbn [rstrip] in IH. rewrite IH. reflexivity.
Qed.

Lemma lstrip_head (s : string) :
  match lstrip s with
  | EmptyString => True
  | String c _ => is_space c = false
  end.
Proof.
  induction s as [|c s IH]; simpl; [exact I|].
  destruct (is_space c) eqn:Hc; [exact IH|exact Hc].
Qed.

Lemma rstrip_head (s : string) :
  match s with
  | EmptyString => True
  | String c _ => is_space c = false
  end ->
  match rstrip s with
  | EmptyString => True
  | String c _ => is_space c = false
  end.
Proof.
  destruct s as [|c s]; [auto|]. intros Hc. simpl.
  destruct (rstrip s); [rewrite Hc|]; exact Hc.
Qed.

Lemma lstrip_fixed (s : string) :
  match s with
  | EmptyString => True
  | String c _ => is_space c = false
  end -> lstrip s = s.
Proof. destruct s as [|c s]; [auto|]. intros Hc. simpl. rewrite Hc. reflexivity. Qed.

Lemma strip_idem (s : string) : strip (strip s) = strip s.
Proof.
  unfold strip.
  rewrite (lstrip_fixed (rstrip (lstrip s)))
    by (apply rstrip_head; apply lstrip_head).
  apply rstrip_idem.
Qed.

Lemma split_at_free_single (sep : ascii -> bool) (x : string) :
  free_of sep x = true -> split_at sep x = [x].
Proof.
  induction x as [|c x IH]; [reflexivity|]. intros H.
  simpl in H. apply andb_true_iff in H. destruct H as [Hc Hx].
  apply negb_true_iff in Hc. simpl. rewrite Hc, (IH Hx). reflexivity.
Qed.

Lemma split_at_app_sep (sep : ascii -> bool) (x t : string) (c : ascii) :
  free_of sep x = true -> sep c = true ->
  split_at sep (append x (String c t)) = x :: split_at sep t.
Proof.
  intros Hx Hc. induction x as [|d x IH]; simpl.
  - rewrite Hc. reflexivity.
  - simpl in Hx. apply andb_true_iff in Hx. destruct Hx as [Hd Hx].
    apply negb_true_iff in Hd. rewrite Hd, (IH Hx). reflexivity.
Qed.

Lemma split_at_join (l : list string) :
  l <> [] ->
  Forall (fun w => free_of is_comma w = true) l ->
  split_at is_comma (join "," l) = l.
Proof.
  induction l as [|x rest IH]; intros Hne Hfree; [contradiction|].
  inversion Hfree as [|? ? Hx Hrest]; subst.
  destruct rest as [|y rest'].
  - simpl. apply split_at_free_single. exact Hx.
  - change (join "," (x :: y :: rest'))
      with (append x (String "," (join "," (y :: rest')))).
    rewrite split_at_app_sep by (exact Hx || reflexivity).
    rewrite IH by (discriminate || exact Hrest). reflexivity.
Qed.

Lemma char_in_append_cons (c : ascii) (x t : string) :
  char_in c (append x (String c t)) = true.
Proof.
  induction x as [|d x IH]; simpl.
  - rewrite Ascii.eqb_refl. reflexivity.
  - rewrite IH. apply orb_true_r.
Qed.

(** X18: With a comma in it, the argument is cut at every comma and each
    piece is stripped: there is one suffix more than there are commas,
    and no suffix contains a comma or starts or ends with whitespace
    (a suffix may be empty). *)
Theorem parse_suffix_list_commas (s : string) :
  char_in "," s = true ->
  exists l,
    parse_suffix_list (Some s) = Some l /\
    length l = 1 + count_char is_comma s /\
    2 <= length l /\
    Forall (fun w => strip w = w /\ free_of is_comma w = true) l.
Proof.
  intros Hcomma. exists (map strip (split_at is_comma s)).
  assert (Hlen : length (map strip (split_at is_comma s))
                 = 1 + count_char is_comma s)
    by (rewrite length_map; apply length_split_at).
  split; [|split; [exact Hlen|split]].
  - unfold parse_suffix_list. destruct s as [|c s]; [discriminate|].
    rewrite Hcomma. reflexivity.
  - rewrite Hlen. apply char_in_count in Hcomma.
    rewrite (count_char_ext is_comma (Ascii.eqb ",")); [lia|].
    intros c. unfold is_comma. apply Ascii.eqb_sym.
  - apply Forall_map. eapply Forall_impl; [|apply split_at_free].
    intros w Hw. split; [apply strip_idem|].
    unfold strip. apply free_of_rstrip, free_of_lstrip. exact Hw.
Qed.

Lemma parse_suffix_list_commas_witness :
  exists l, parse_suffix_list (Some "_a, _b ,,_c"%string) = Some l /\
            length l = 4.
Proof.
  destruct (parse_suffix_list_commas "_a, _b ,,_c" eq_refl)
    as (l & Hl & Hlen & _).
  exists l. split; [exact Hl|exact Hlen].
Defined.

(** X19: Writing at least two suffixes that hold no comma and no whitespace
    at either end with commas between them and parsing the result gives
    the suffixes back. *)
Theorem parse_suffix_list_join (l : list string) :
  2 <= length l ->
  Forall (fun w => strip w = w /\ free_of is_comma w = true) l ->
  parse_suffix_list (Some (join "," l)) = Some l.
Proof.
  intros Hlen Hall.
  destruct l as [|x [|y rest]]; [simpl in Hlen; lia|simpl in Hlen; lia|].
  assert (Hfree : Forall (fun w => free_of is_comma w = true) (x :: y :: rest))
    by (eapply Forall_impl; [|exact Hall]; intros w [_ H]; exact H).
  assert (Hcomma : char_in "," (join "," (x :: y :: rest)) = true)
    by apply char_in_append_cons.
  unfold parse_suffix_list.
  destruct (join "," (x :: y :: rest)) as [|c s] eqn:Hjoin; [discriminate|].
  rewrite Hcomma, <- Hjoin, split_at_join by (discriminate || exact Hfree).
  f_equal. clear -Hall. induction Hall as [|w l [Hw _] _ IH]; [reflexivity|].
  simpl. rewrite Hw, IH. reflexivity.
Qed.

Lemma parse_suffix_list_join_witness :
  parse_suffix_list (Some "_a,_b,_c"%string)
  = Some ["_a"; "_b"; "_c"]%string.
Proof.
  apply (parse_suffix_list_join ["_a"; "_b"; "_c"]%string).
  - simpl. lia.
  - repeat constructor.
Defined.

Lemma filter_nonempty_spec (l : list string) :
  Forall (fun w => w <> EmptyString) (filter nonempty l).
Proof.
  induction l as [|w l IH]; [constructor|].
  simpl. destruct w; simpl; [exact IH|]. constructor; [discriminate|exact IH].
Qed.

(** X20: Without a comma, a non-empty argument is cut at whitespace: no
    suffix is empty or contains whitespace, and the suffixes put end to
    end are the argument with its whitespace taken out. *)
Theorem parse_suffix_list_whitespace (s : string) :
  s <> EmptyString -> char_in "," s = false ->
  exists l,
    parse_suffix_list (Some s) = Some l /\
    Forall (fun w => w <> EmptyString /\ free_of is_space w = true) l /\
    concat_strings l = without is_space s.
Proof.
  intros Hne Hcomma. exists (split_whitespace s). split; [|split].
  - unfold parse_suffix_list. destruct s as [|c s]; [contradiction|].
    rewrite Hcomma. reflexivity.
  - unfold split_whitespace. apply Forall_forall. intros w Hw.
    split.
    + pose proof (filter_nonempty_spec (split_at is_space s)) as H.
      rewrite Forall_forall in H. apply H. exact Hw.
    + apply filter_In in Hw. destruct Hw as [Hw _].
      pose proof (split_at_free is_space s) as H.
      rewrite Forall_forall in H. apply H. exact Hw.
  - unfold split_whitespace.
    rewrite concat_filter_nonempty. apply concat_split_at.
Qed.

Lemma parse_suffix_list_whitespace_witness :
  exists l, parse_suffix_list (Some "_a  _b"%string) = Some l /\
            concat_strings l = "_a_b"%string.
Proof.
  destruct (parse_suffix_list_whitespace "_a  _b" ltac:(discriminate) eq_refl)
    as (l & Hl & _ & Hc).
  exists l. split; [exact Hl|exact Hc].
Defined.

Lemma all_space_no_comma (s : string) :
  without is_space s = EmptyString -> char_in "," s = false.
Proof.
  induction s as [|c s IH]; [reflexivity|]. cbn [without char_in].
  destruct (is_space c) eqn:Hc; [|discriminate]. intros H.
  rewrite (IH H), orb_false_r. apply Ascii.eqb_neq. intros <-. discriminate.
Qed.

Lemma concat_empty_nil (l : list string) :
  Forall (fun w => w <> EmptyString) l ->
  concat_strings l = EmptyString -> l = [].
Proof.
  destruct l as [|w l]; [reflexivity|]. intros Hall Hc.
  inversion Hall as [|? ? Hw _]; subst. destruct w; [contradiction|discriminate].
Qed.

(** X21: A [--suffixes] argument that is missing, empty or all whitespace
    leaves the naming to the template. *)
Theorem blank_suffixes_use_template (suffix_str : option string)
    (base_name : string) (row col total_cols : Z) (suffix_template : string) :
  match suffix_str with
  | None => True
  | Some s => without is_space s = EmptyString
  end ->
  generate_output_filename base_name row col total_cols suffix_template
    (parse_suffix_list suffix_str)
  = generate_output_filename base_name row col total_cols suffix_template None.
Proof.
  destruct suffix_str as [s|]; [|reflexivity]. intros Hblank.
  destruct s as [|c s]; [reflexivity|].
  unfold parse_suffix_list. rewrite (all_space_no_comma _ Hblank).
  replace (split_whitespace (String c s)) with (@nil string); [reflexivity|].
  symmetry. apply concat_empty_nil; [apply filter_nonempty_spec|].
  unfold split_whitespace. rewrite concat_filter_nonempty, concat_split_at.
  exact Hblank.
Qed.

Lemma blank_suffixes_use_template_witness :
  generate_output_filename "base" 0 1 2 "{name}_{N}"
    (parse_suffix_list (Some "  "%string)) = Ok "base_2"%string.
Proof.
  rewrite (blank_suffixes_use_template (Some "  "%string) "base" 0 1 2
             "{name}_{N}" eq_refl).
  reflexivity.
Defined.

(** ** save_image and the extension *)

Lemma ascii_lower_idem (c : ascii) : ascii_lower (ascii_lower c) = ascii_lower c.
Proof. destruct c as [[] [] [] [] [] [] [] []]; reflexivity. Qed.

Lemma str_lower_idem (s : string) : str_lower (str_lower s) = str_lower s.
Proof.
  induction s as [|c s IH]; [reflexivity|].
  simpl. rewrite ascii_lower_idem, IH. reflexivity.
Qed.

Lemma str_lower_lstrip_dot (s : string) :
  str_lower (lstrip_char "." (str_lower s)) = lstrip_char "." (str_lower s).
Proof.
  induction s as [|c s IH]; [reflexivity|].
  simpl. destruct (Ascii.eqb (ascii_lower c) "."); [exact IH|].
  simpl. rewrite ascii_lower_idem, str_lower_idem. reflexivity.
Qed.

Lemma lstrip_char_idem (c : ascii) (s : string) :
  lstrip_char c (lstrip_char c s) = lstrip_char c s.
Proof.
  induction s as [|d s IH]; [reflexivity|].
  simpl. destruct (Ascii.eqb d c) eqn:Hd; [exact IH|].
  simpl. rewrite Hd. reflexivity.
Qed.

Lemma format_lower_idem (output_format : string) :
  format_lower (format_lower output_format) = format_lower output_format.
Proof.
  unfold format_lower. rewrite str_lower_lstrip_dot. apply lstrip_char_idem.
Qed.

Lemma format_lower_dot (output_format : string) :
  format_lower (String "." output_format) = format_lower output_format.
Proof. reflexivity. Qed.

(** X22: The format is read without regard to leading dots, so the extension
    the run appends is itself a spelling of the same format: it starts
    with exactly one dot, normalising it again changes nothing, and
    [save_image] treats it as it treats the format it came from. *)
Theorem output_ext_stable (output_format : string) :
  output_ext (output_ext output_format) = output_ext output_format /\
  save_image (output_ext output_format) = save_image output_format /\
  save_image (String "." output_format) = save_image output_format /\
  lstrip_char "." (format_lower output_format) = format_lower output_format.
Proof.
  assert (H : format_lower (output_ext output_format)
              = format_lower output_format).
  { unfold output_ext. rewrite format_lower_dot. apply format_lower_idem. }
  split; [|split; [|split]].
  - unfold output_ext at 1 3. rewrite H. reflexivity.
  - unfold save_image. rewrite H. reflexivity.
  - reflexivity.
  - unfold format_lower. apply lstrip_char_idem.
Qed.

(** ** Intervals are cut at blank lines *)

Lemma border_inv_step (min_size min_gap : Z) (n : nat) (W : list bool)
    (i : nat) (st : scan_state) :
  border_inv W i st ->
  border_inv W (S i) (region_step min_size min_gap n W st i).
Proof.
  intros (Hreg & Hst). unfold region_step, border_inv, blank_before.
  destruct (nth i W false) eqn:Hw; destruct (in_region st) eqn:Hin; simpl.
  - destruct (_ || _).
    + simpl. split; [|right; rewrite Nat.sub_0_r; exact Hw].
      destruct (_ >=? _)%Z; [|exact Hreg].
      apply Forall_app. split; [exact Hreg|].
      constructor; [|constructor]. simpl. split; assumption.
    + rewrite Hin. split; assumption.
  - rewrite Hin. split; [exact Hreg|]. right. rewrite Nat.sub_0_r. exact Hw.
  - rewrite Hin. split; assumption.
  - split; assumption.
Qed.

Lemma border_inv_loop (min_size min_gap : Z) (n : nat) (W : list bool)
    (c : nat) :
  border_inv W c (region_loop min_size min_gap n W 0 c (mk_scan [] false 0)).
Proof.
  induction c as [|c IH].
  - split; [constructor|left; reflexivity].
  - rewrite loop_snoc. apply border_inv_step. exact IH.
Qed.

(** X23: every interval returned by [find_regions] starts at the
    beginning of the axis or right after a blank line, and ends at the
    end of the axis or right before a blank line. *)
Theorem find_regions_cut_at_blank_lines
    (min_size min_gap : Z) (axis_size : nat) (is_white_func : nat -> bool) :
  Forall (fun r : Interval =>
            (fst r = 0 \/ is_white_func (fst r - 1) = true) /\
            (snd r = axis_size \/ is_white_func (snd r) = true))
         (find_regions min_size min_gap axis_size is_white_func).
Proof.
  destruct (find_regions_ok min_size min_gap axis_size is_white_func)
    as [Hok _].
  assert (Hborder :
    Forall (fun r : Interval =>
              blank_before (map is_white_func (seq 0 axis_size)) (fst r) /\
              (snd r = axis_size \/
               nth (snd r) (map is_white_func (seq 0 axis_size)) false = true))
           (find_regions min_size min_gap axis_size is_white_func)).
  { unfold find_regions.
    destruct (border_inv_loop min_size min_gap axis_size
                (map is_white_func (seq 0 axis_size)) axis_size) as [Hreg Hst].
    set (st := region_loop _ _ _ _ 0 axis_size _) in *.
    assert (Hreg' : Forall (fun r : Interval =>
                blank_before (map is_white_func (seq 0 axis_size)) (fst r) /\
                (snd r = axis_size \/
                 nth (snd r) (map is_white_func (seq 0 axis_size)) false = true))
              (regions st)).
    { eapply Forall_impl; [|exact Hreg]. intros r [H1 H2]. auto. }
    destruct (in_region st); simpl; [|exact Hreg'].
    destruct (_ >=? _)%Z; [|exact Hreg'].
    apply Forall_app. split; [exact Hreg'|].
    constructor; [|constructor]. simpl. auto. }
  rewrite Forall_forall in *. intros r Hr.
  destruct (Hok r Hr) as (Hlt & Hle & _). destruct (Hborder r Hr) as [Hb He].
  split.
  - destruct Hb as [Hb|Hb]; [left; exact Hb|right].
    rewrite nth_map_seq in Hb by lia. exact Hb.
  - destruct He as [He|He]; [left; exact He|].
    destruct (Nat.eq_dec (snd r) axis_size) as [Heq|Hne]; [left; exact Heq|right].
    rewrite nth_map_seq in He by lia. exact He.
Qed.

(** ** Numbered names *)

Lemma slice_name_numbered (base_name : string) (cfg : config)
    (total_cols : nat) (s : Slice) :
  slice_name base_name (with_template cfg "{name}_{N}") total_cols s
  = Ok (append base_name
          (String "_" (py_str (PyInt (Z.of_nat (linear_index total_cols s) + 1))))).
Proof.
  unfold slice_name.
  change (suffix_template (with_template cfg "{name}_{N}"))
    with (template_of numbered_segments).
  change (suffix_list (with_template cfg "{name}_{N}"))
    with (@None (list string)).
  rewrite generate_from_template.
  rewrite <- (append_nil_r (template_of _)), vformat_segments by reflexivity.
  cbn [vformat omap bind]. rewrite append_nil_r.
  unfold numbered_segments. cbn [render placeholder_value].
  rewrite append_nil_r. unfold linear_index.
  rewrite Nat2Z.inj_add, Nat2Z.inj_mul. reflexivity.
Qed.

(** X24: the template [{name}_{N}] numbers the slices 1, 2, 3, ... in
    the order they are cut: the [k]-th name (from 0) is the base name,
    an underscore and [k + 1] in decimal. *)
Theorem numbered_template_counts_in_order (arr : ndarray)
    (base_name : string) (cfg : config) :
  let cfg' := with_template cfg "{name}_{N}" in
  let total := length (v_regions arr cfg) * length (h_regions arr cfg) in
  map fst (fst (split_composite_image arr base_name cfg'))
  = map (fun k => append base_name
                    (String "_" (py_str (PyInt (Z.of_nat k + 1)))))
        (seq 0 total) /\
  snd (split_composite_image arr base_name cfg') = Ok total.
Proof.
  intros cfg' total. unfold split_composite_image.
  change (h_regions arr cfg') with (h_regions arr cfg).
  change (v_regions arr cfg') with (v_regions arr cfg).
  rewrite (save_all_names _
             (fun s => append base_name
                         (String "_" (py_str (PyInt
                            (Z.of_nat (linear_index
                                         (length (h_regions arr cfg)) s) + 1))))))
    by (intros s _; apply slice_name_numbered).
  cbn [fst snd]. split.
  - rewrite map_map. cbn [fst]. subst total.
    rewrite <- (assemble_linear_index arr cfg'), map_map. reflexivity.
  - rewrite length_assemble. reflexivity.
Qed.

(** ** Exact and binary64 classifiers *)

Lemma find_regions_ext (min_size min_gap : Z) (axis_size : nat)
    (f g : nat -> bool) :
  (forall i, i < axis_size -> f i = g i) ->
  find_regions min_size min_gap axis_size f
  = find_regions min_size min_gap axis_size g.
Proof.
  intros H. unfold find_regions.
  assert (E : map f (seq 0 axis_size) = map g (seq 0 axis_size)).
  { apply map_ext_in. intros i Hi. apply in_seq in Hi. apply H. lia. }
  rewrite E. reflexivity.
Qed.

Lemma length_column_pixels (arr : ndarray) (c : nat) :
  length (column_pixels arr c) = height arr.
Proof. unfold column_pixels, height. apply length_map. Qed.

Lemma length_row_pixels (arr : ndarray) (r : nat) :
  rectangular arr -> r < height arr ->
  length (row_pixels arr r) = width arr.
Proof.
  intros Hrect Hr. unfold rectangular in Hrect.
  rewrite Forall_forall in Hrect. apply Hrect.
  unfold row_pixels. apply nth_In. exact Hr.
Qed.

(** X25: on a rectangular image whose height and width, each multiplied
    by the denominator of [white_ratio], stay below 2^52, the column and
    row intervals found with the comparisons made in binary64 are those
    found with the fractions compared exactly; so does the trim
    classifier agree on every line of 8-bit pixels that short. *)
Theorem binary64_agrees (arr : ndarray) (cfg : config) :
  rectangular arr ->
  (Z.of_nat (height arr) * Zpos (Qden (white_ratio cfg)) < 2 ^ 52)%Z ->
  (Z.of_nat (width arr) * Zpos (Qden (white_ratio cfg)) < 2 ^ 52)%Z ->
  Binary64.h_regions arr cfg = h_regions arr cfg /\
  Binary64.v_regions arr cfg = v_regions arr cfg /\
  (forall (threshold : Z) (ratio : Q) (pixels : line),
     Forall uint8_pixel pixels ->
     (Z.of_nat (length pixels) * Zpos (Qden ratio) < 2 ^ 52)%Z ->
     Binary64.is_edge_white threshold ratio pixels
     = is_edge_white threshold ratio pixels).
Proof.
  intros Hrect Hh Hw. split; [|split].
  - unfold Binary64.h_regions, h_regions. f_equal.
    apply find_regions_ext. intros i _.
    unfold Binary64.is_white_column, is_white_column.
    rewrite line_is_white_b64, line_is_white_blank.
    apply blank_line_b64_exact. rewrite length_column_pixels. exact Hh.
  - unfold Binary64.v_regions, v_regions. f_equal.
    apply find_regions_ext. intros i Hi.
    unfold Binary64.is_white_row, is_white_row.
    rewrite line_is_white_b64, line_is_white_blank.
    apply blank_line_b64_exact.
    rewrite (length_row_pixels arr i Hrect Hi). exact Hw.
  - intros threshold ratio pixels Hu Hlen.
    rewrite (is_edge_white_b64 _ _ _ Hu), is_edge_white_blank.
    apply blank_line_b64_exact. exact Hlen.
Qed.

Lemma binary64_agrees_witness :
  rectangular cross_image /\
  Binary64.h_regions cross_image cross_config = [(0, 1); (2, 3)] /\
  h_regions cross_image cross_config = [(0, 1); (2, 3)] /\
  Binary64.v_regions cross_image cross_config
  = v_regions cross_image cross_config.
Proof.
  assert (Hrect : rectangular cross_image) by (repeat constructor).
  destruct (binary64_agrees cross_image cross_config Hrect)
    as (Hh & Hv & _); [reflexivity|reflexivity|].
  split; [exact Hrect|]. split; [|split; [|exact Hv]].
  - rewrite Hh. reflexivity.
  - reflexivity.
Defined.
